(** * Federated learning on Flower: the simulation server and the CIFAR client

    A shallow embedding of [src/sim_server.py] and [src/client_device.py].
    Python values are modelled as the code has them: [int] is [Z], [str] and
    [bytes] are [string], a [dict] with string keys is a [gmap string],
    an exception is the [Err] branch of [result].  A Python [float] is a
    type [F] with the operations of the class [PyFloat]; the class has two
    instances, IEEE 754 binary64 (what CPython computes, from the
    specification of [SpecFloat]) and exact rational arithmetic (what the
    formulas mean when no operation rounds). *)

From Stdlib Require Import ZArith QArith Qcanon SpecFloat Lia Ascii.
From Stdlib Require Import Qpower Qabs Lqa.
From stdpp Require Import base option list gmap strings numbers pretty.

#[local] Open Scope Z_scope.

(** * The model *)

(** ** Python exceptions and results *)

Inductive PyError : Type :=
  | KeyError (key : string)
  | IndexError
  | ZeroDivisionError
  | OverflowError
  | TypeError
  | ValueError
  | CollaboratorError (code : Z).

Inductive result (A : Type) : Type :=
  | Ok (a : A)
  | Err (e : PyError).
Arguments Ok {A} a.
Arguments Err {A} e.

#[global] Instance result_ret : MRet result := @Ok.
#[global] Instance result_bind : MBind result := λ A B f r,
  match r with Ok a => f a | Err e => Err e end.
#[global] Instance result_fmap : FMap result := λ A B f r,
  match r with Ok a => Ok (f a) | Err e => Err e end.

Definition is_Ok {A} (r : result A) : Prop := ∃ a, r = Ok a.

Definition of_option {A} (e : PyError) (o : option A) : result A :=
  match o with Some a => Ok a | None => Err e end.

(** A list comprehension [[f x for x in l]]: the elements are evaluated from
    left to right and the first exception leaves the comprehension. *)
Fixpoint comprehension {A B} (f : A → result B) (l : list A) : result (list B) :=
  match l with
  | [] => Ok []
  | x :: l' => y ← f x; ys ← comprehension f l'; Ok (y :: ys)
  end.

(** ** Python floats *)

(** The operations on [float] that the two source files use.  An [int]
    operand of a float operation is converted first: [int_to_float] is the
    converted value and [int_fits] tells whether the conversion succeeds
    (Python raises [OverflowError] when it does not).  [float_div] is [/] on
    floats ([None]: the divisor is zero, Python raises [ZeroDivisionError]),
    [int_truediv] is [/] on two integers with a divisor that is not zero,
    and [float_trunc] is [int(x)]. *)
Class PyFloat (F : Type) : Type := {
  int_fits : Z → bool;
  int_to_float : Z → F;
  float_add : F → F → F;
  float_mul : F → F → F;
  float_div : F → F → option F;
  int_truediv : Z → Z → result F;
  float_trunc : F → result Z;
}.

(** ** Flower scalars and metrics *)

(** [flwr.common.Scalar = Union[bool, bytes, float, int, str]]. *)
Inductive Scalar (F : Type) : Type :=
  | SBool (b : bool)
  | SBytes (b : string)
  | SFloat (x : F)
  | SInt (n : Z)
  | SStr (s : string).
Arguments SBool {F} b.
Arguments SBytes {F} b.
Arguments SFloat {F} x.
Arguments SInt {F} n.
Arguments SStr {F} s.

(** [flwr.common.Metrics = Dict[str, Scalar]]; a per-round [config] has the
    same type. *)
Abbreviation Metrics F := (gmap string (Scalar F)).

(** [d[key]] on a dict. *)
Definition getitem {V} (d : gmap string V) (key : string) : result V :=
  of_option (KeyError key) (d !! key).

(** [sys.maxsize], the largest index and length, of a 64-bit CPython. *)
Definition sys_maxsize : Z := 2 ^ 63 - 1.

Fixpoint str_repeat (n : nat) (s : string) : string :=
  match n with
  | O => EmptyString
  | S n' => String.append s (str_repeat n' s)
  end.

(** [n * s] for a [str] or [bytes] [s]: [s] repeated, empty when [n <= 0].
    The count has to be index-sized and the result no longer than
    [sys.maxsize], or CPython raises [OverflowError].  (The model has the
    memory for every result within these bounds; a machine that has not
    raises [MemoryError].) *)
Definition seq_repeat (n : Z) (s : string) : result string :=
  if (n <? - sys_maxsize - 1) || (sys_maxsize <? n) then Err OverflowError
  else if n <? 1 then Ok EmptyString
  else if sys_maxsize / n <? Z.of_nat (String.length s) then Err OverflowError
  else Ok (str_repeat (Z.to_nat n) s).

Section PythonArithmetic.
Context {F : Type} `{PyFloat F}.

(** The implicit conversion of an [int] operand. *)
Definition float_of_int (n : Z) : result F :=
  if int_fits n then Ok (int_to_float n) else Err OverflowError.

(** The numeric value of an operand: [bool] is a subclass of [int]. *)
Definition as_number (v : Scalar F) : option (Z + F) :=
  match v with
  | SBool b => Some (inl (if b then 1 else 0))
  | SInt n => Some (inl n)
  | SFloat x => Some (inr x)
  | SBytes _ | SStr _ => None
  end.

(** [n * v] with an [int] on the left. *)
Definition py_mul (n : Z) (v : Scalar F) : result (Scalar F) :=
  match v with
  | SBool b => Ok (SInt (n * (if b then 1 else 0)))
  | SInt k => Ok (SInt (n * k))
  | SFloat x => nf ← float_of_int n; Ok (SFloat (float_mul nf x))
  | SStr s => SStr <$> seq_repeat n s
  | SBytes s => SBytes <$> seq_repeat n s
  end.

(** [v + w]. *)
Definition py_add (v w : Scalar F) : result (Scalar F) :=
  match v, w with
  | SStr s, SStr t => Ok (SStr (String.append s t))
  | SBytes s, SBytes t => Ok (SBytes (String.append s t))
  | _, _ =>
    match as_number v, as_number w with
    | Some (inl a), Some (inl b) => Ok (SInt (a + b))
    | Some (inl a), Some (inr y) =>
        x ← float_of_int a; Ok (SFloat (float_add x y))
    | Some (inr x), Some (inl b) =>
        y ← float_of_int b; Ok (SFloat (float_add x y))
    | Some (inr x), Some (inr y) => Ok (SFloat (float_add x y))
    | _, _ => Err TypeError
    end
  end.

(** [v / w]. *)
Definition py_truediv (v w : Scalar F) : result (Scalar F) :=
  match as_number v, as_number w with
  | Some (inl a), Some (inl b) =>
      if decide (b = 0) then Err ZeroDivisionError
      else SFloat <$> int_truediv a b
  | Some (inl a), Some (inr y) =>
      x ← float_of_int a;
      SFloat <$> of_option ZeroDivisionError (float_div x y)
  | Some (inr x), Some (inl b) =>
      y ← float_of_int b;
      SFloat <$> of_option ZeroDivisionError (float_div x y)
  | Some (inr x), Some (inr y) =>
      SFloat <$> of_option ZeroDivisionError (float_div x y)
  | _, _ => Err TypeError
  end.

(** [sum(l)]: the items are added to the start value [0] from left to
    right, each addition rounded.  (This is [sum] up to CPython 3.11; from
    3.12 on CPython adds float items with a compensated sum, which can
    differ from it in the last bits.) *)
Fixpoint sum_from (acc : Scalar F) (l : list (Scalar F)) : result (Scalar F) :=
  match l with
  | [] => Ok acc
  | x :: l' => acc' ← py_add acc x; sum_from acc' l'
  end.

Definition py_sum (l : list (Scalar F)) : result (Scalar F) :=
  sum_from (SInt 0) l.

(** ** [sim_server.weighted_average] *)

Definition weighted_average (metrics : list (Z * Metrics F))
    : result (Metrics F) :=
  accuracies ← comprehension
    (λ '(num_examples, m), a ← getitem m "accuracy"; py_mul num_examples a)
    metrics;
  let examples := (λ '(num_examples, _), SInt num_examples) <$> metrics in
  total ← py_sum accuracies;
  count ← py_sum examples;
  accuracy ← py_truediv total count;
  Ok {[ "accuracy" := accuracy ]}.

(** One element of the first comprehension of [weighted_average], named
    for the proofs. *)
Definition accuracy_product (r : Z * Metrics F) : result (Scalar F) :=
  let '(num_examples, m) := r in
  a ← getitem m "accuracy"; py_mul num_examples a.

End PythonArithmetic.

(** ** [int(...)] and list subscripts *)

(** The whitespace that [int] strips: tab, line feed, vertical tab, form
    feed, carriage return and space. *)
Definition is_space (c : ascii) : bool :=
  let n := nat_of_ascii c in
  ((9 <=? n)%nat && (n <=? 13)%nat) || (n =? 32)%nat.

Definition digit_value (c : ascii) : option Z :=
  let n := Z.of_nat (nat_of_ascii c) in
  if (48 <=? n) && (n <=? 57) then Some (n - 48) else None.

Fixpoint lstrip (l : list ascii) : list ascii :=
  match l with
  | c :: l' => if is_space c then lstrip l' else l
  | [] => []
  end.

Definition strip (l : list ascii) : list ascii :=
  reverse (lstrip (reverse (lstrip l))).

(** Decimal digits, with single underscores allowed between two digits;
    the value and the number of digits. *)
Fixpoint digits (acc : Z) (count : nat) (after_digit : bool) (l : list ascii)
    : option (Z * nat) :=
  match l with
  | [] => if after_digit then Some (acc, count) else None
  | c :: l' =>
      match digit_value c with
      | Some d => digits (10 * acc + d) (S count) true l'
      | None =>
          if Ascii.eqb c "_" && after_digit then digits acc count false l'
          else None
      end
  end.

(** [int(s)] for an ASCII string: optional whitespace around an optional
    sign and the digits.  [max_str_digits] is
    [sys.get_int_max_str_digits()]: 4300 by default since CPython 3.11, and
    [0] for no limit.  (Characters outside ASCII are not modelled: the
    model answers [ValueError] where CPython also reads the decimal digits
    and spaces of other scripts.) *)
Definition int_of_str (max_str_digits : nat) (s : string) : result Z :=
  let l := strip (String.list_ascii_of_string s) in
  let '(negative, body) :=
    match l with
    | "-"%char :: l' => (true, l')
    | "+"%char :: l' => (false, l')
    | _ => (false, l)
    end in
  match digits 0 0 false body with
  | Some (v, count) =>
      if decide (0 < max_str_digits < count)%nat then Err ValueError
      else Ok (if negative then - v else v)
  | None => Err ValueError
  end.

(** [int(v)] for a scalar. *)
Definition py_int {F} `{PyFloat F} (max_str_digits : nat) (v : Scalar F)
    : result Z :=
  match v with
  | SBool b => Ok (if b then 1 else 0)
  | SInt n => Ok n
  | SFloat x => float_trunc x
  | SStr s | SBytes s => int_of_str max_str_digits s
  end.

(** [l[i]] on a list: a negative index counts from the end, and an index
    outside [-len(l) <= i < len(l)] raises [IndexError]. *)
Definition list_getitem {A} (l : list A) (i : Z) : result A :=
  let n := Z.of_nat (length l) in
  let j := if i <? 0 then i + n else i in
  if (0 <=? j) && (j <? n) then of_option IndexError (l !! Z.to_nat j)
  else Err IndexError.

(** ** [sim_server]: constants and [fit_config] *)

Definition BATCH_SIZE : Z := 32.
Definition NUM_CLIENTS : Z := 2.
Definition NUM_ROUNDS : Z := 50.
Definition LOCAL_EPOCHS : Z := 1.

(** [fit_config(server_round, local_epochs=LOCAL_EPOCHS)]: [None] is the
    call with one argument, which is how the strategy calls
    [on_fit_config_fn]. *)
Definition fit_config {F} (server_round : Z) (local_epochs : option Z)
    : Metrics F :=
  let local_epochs := default LOCAL_EPOCHS local_epochs in
  {[ "server_round" := SInt server_round;
     "local_epochs" := SInt local_epochs ]}.

(** ** The collaborators of the client *)

(** [torch.device("cuda" if torch.cuda.is_available() else "cpu")]. *)
Inductive Device : Type := cuda | cpu.

(** What the two source files import and do not define: the model, the
    data and the helpers of [src.utils] ([helper_func], [dataset_utils]),
    and two settings of the interpreter.  A collaborator that raises
    returns [Err].  [test] returns the loss and the accuracy already
    converted by [float(...)].  [mobilenet_v2] builds a randomly
    initialised network, so its result is an argument of the functions that
    call it. *)
Class Collaborators (F : Type) : Type := {
  Net : Type;
  NDArrays : Type;
  DataLoader : Type;
  MetricsList : Type;
  FileSystem : Type;
  helper_get_parameters : Net → NDArrays;
  helper_set_parameters : Net → NDArrays → result Net;
  train : Net → DataLoader → Z → Device → result (Net * MetricsList);
  test : Net → DataLoader → Device → result (Net * (F * F * MetricsList));
  save_metrics_to_csv : string → MetricsList → FileSystem → result FileSystem;
  dataset_len : DataLoader → Z;
  load_datasets : Z → DataLoader * DataLoader;
  load_seperate_datasets : Z → Z → list DataLoader * list DataLoader;
  cuda_is_available : bool;
  int_max_str_digits : nat;
}.

(** A client id is the [cid] string of the simulation or the integer drawn
    by the client-mode [main]. *)
Inductive ClientId : Type :=
  | IdStr (s : string)
  | IdInt (n : Z).

(** [f"{client_id}"]. *)
Definition format_id (id : ClientId) : string :=
  match id with
  | IdStr s => s
  | IdInt n => pretty n
  end.

Definition train_metrics_file (id : ClientId) : string :=
  "client_" +:+ format_id id +:+ "_train_metrics.csv".

Definition eval_metrics_file (id : ClientId) : string :=
  "client_" +:+ format_id id +:+ "_eval_metrics.csv".

Section Client.
Context {F : Type} `{PyFloat F} `{Collaborators F}.

(** ** [client_device.CifarClient] *)

Record CifarClient : Type := {
  client_id : ClientId;
  net : Net;
  train_dataloader : DataLoader;
  test_dataloader : DataLoader;
}.

(** The lines that the client prints, before formatting. *)
Inductive Printed : Type :=
  | PrintFit (server_round : Scalar F) (config : Metrics F)
  | PrintEvaluate (server_round : Scalar F) (config : Metrics F)
  | PrintLoss (loss accuracy : F).

(** The store that a method call works on: the client object, the dict
    objects by address (the caller and the method share the [config]
    dict of a call through its address), the files and the standard
    output. *)
Record World : Type := {
  self : CifarClient;
  heap : gmap positive (Metrics F);
  files : FileSystem;
  stdout : list Printed;
}.

(** A method: it returns or raises, and leaves a store. *)
Definition M (A : Type) : Type := World → result A * World.

#[global] Instance M_ret : MRet M := λ A a w, (Ok a, w).
#[global] Instance M_bind : MBind M := λ A B f m w,
  match m w with
  | (Ok a, w') => f a w'
  | (Err e, w') => (Err e, w')
  end.

Definition lift {A} (r : result A) : M A := λ w, (r, w).

Definition get_self : M CifarClient := λ w, (Ok (self w), w).

(** The network of the client is updated in place. *)
Definition set_net (net' : Net) : M unit := λ w,
  (Ok (),
   {| self := {| client_id := client_id (self w); net := net';
                 train_dataloader := train_dataloader (self w);
                 test_dataloader := test_dataloader (self w) |};
      heap := heap w; files := files w; stdout := stdout w |}).

(** The dict at an address (a method is called with the address of a live
    dict; any other address reads as the empty dict). *)
Definition read (d : positive) : M (Metrics F) := λ w,
  (Ok (heap w !!! d), w).

(** A dict display [{...}] makes a new object. *)
Definition alloc (d : Metrics F) : M positive := λ w,
  let l := fresh (dom (heap w)) in
  (Ok l,
   {| self := self w; heap := <[l := d]> (heap w); files := files w;
      stdout := stdout w |}).

Definition print (line : Printed) : M unit := λ w,
  (Ok (),
   {| self := self w; heap := heap w; files := files w;
      stdout := stdout w ++ [line] |}).

Definition on_files (f : FileSystem → result FileSystem) : M unit := λ w,
  match f (files w) with
  | Ok fs =>
      (Ok (), {| self := self w; heap := heap w; files := fs;
                 stdout := stdout w |})
  | Err e => (Err e, w)
  end.

Definition torch_device : Device :=
  if cuda_is_available then cuda else cpu.

(** [config[key]]. *)
Definition subscript (config : positive) (key : string) : M (Scalar F) :=
  d ← read config; lift (getitem d key).

Definition get_parameters (config : positive) : M NDArrays :=
  c ← get_self; mret (helper_get_parameters (net c)).

Definition set_parameters (parameters : NDArrays) (config : positive)
    : M unit :=
  c ← get_self;
  net' ← lift (helper_set_parameters (net c) parameters);
  set_net net'.

Definition fit (parameters : NDArrays) (config : positive)
    : M (NDArrays * Z * positive) :=
  server_round ← subscript config "server_round";
  local_epochs ← subscript config "local_epochs";
  let device := torch_device in
  d ← read config;
  print (PrintFit server_round d);;
  set_parameters parameters config;;
  c ← get_self;
  epochs ← lift (py_int int_max_str_digits local_epochs);
  '(net', metrics_list) ← lift (train (net c) (train_dataloader c) epochs device);
  set_net net';;
  on_files (save_metrics_to_csv (train_metrics_file (client_id c)) metrics_list);;
  empty ← alloc ∅;
  parameters' ← get_parameters empty;
  c ← get_self;
  metrics ← alloc ∅;
  mret (parameters', dataset_len (train_dataloader c), metrics).

Definition evaluate (parameters : NDArrays) (config : positive)
    : M (F * Z * positive) :=
  server_round ← subscript config "server_round";
  let device := torch_device in
  d ← read config;
  print (PrintEvaluate server_round d);;
  set_parameters parameters config;;
  c ← get_self;
  '(net', (loss, accuracy, metrics_list)) ←
    lift (test (net c) (test_dataloader c) device);
  set_net net';;
  print (PrintLoss loss accuracy);;
  on_files (save_metrics_to_csv (eval_metrics_file (client_id c)) metrics_list);;
  c ← get_self;
  metrics ← alloc {[ "accuracy" := SFloat accuracy ]};
  mret (loss, dataset_len (test_dataloader c), metrics).

End Client.

(** ** [sim_server]: the client factories, and the client-mode [main] *)

Section Factories.
Context {F : Type} `{PyFloat F} `{Collaborators F}.

(** The module-level lists
    [client_train_datasets, client_test_datasets =
     load_seperate_datasets(NUM_CLIENTS, BATCH_SIZE)]. *)
Definition client_train_datasets : list DataLoader :=
  (load_seperate_datasets NUM_CLIENTS BATCH_SIZE).1.

Definition client_test_datasets : list DataLoader :=
  (load_seperate_datasets NUM_CLIENTS BATCH_SIZE).2.

(** [client_fn(cid)]; [net0] is the network that [mobilenet_v2] returns. *)
Definition client_fn (net0 : Net) (cid : string) : CifarClient :=
  let '(train_dataloader, test_dataloader) := load_datasets BATCH_SIZE in
  {| client_id := IdStr cid; net := net0;
     train_dataloader := train_dataloader;
     test_dataloader := test_dataloader |}.

(** [client_fn_gpu(cid)], the factory that [main] gives to
    [start_simulation]. *)
Definition client_fn_gpu (net0 : Net) (cid : string) : result CifarClient :=
  i ← int_of_str int_max_str_digits cid;
  train_dataloader ← list_getitem client_train_datasets i;
  j ← int_of_str int_max_str_digits cid;
  test_dataloader ← list_getitem client_test_datasets j;
  Ok {| client_id := IdStr cid; net := net0;
        train_dataloader := train_dataloader;
        test_dataloader := test_dataloader |}.

(** [random.randint(a, b)] returns some integer [v] with [a <= v <= b]:
    the outcomes of a call, as a relation. *)
Definition randint (a b v : Z) : Prop := a ≤ v ≤ b.

(** The client that the client-mode [main] of [client_device] constructs,
    before it starts serving: the possible outcomes of a run. *)
Inductive main_client (net0 : Net) : CifarClient → Prop :=
  | main_client_draw v :
      randint 0 1000 v →
      main_client net0
        {| client_id := IdInt v; net := net0;
           train_dataloader := (load_datasets 32).1;
           test_dataloader := (load_datasets 32).2 |}.

End Factories.

(** ** Exact arithmetic *)

(** Rational numbers in canonical form: no operation rounds and no
    conversion overflows. *)
Module Exact.

Definition of_Z : Z → Qc := Qc_of_Z.

Definition div (x y : Qc) : option Qc :=
  if decide (y = 0%Qc) then None else Some (x / y)%Qc.

(** [int(x)] rounds towards zero. *)
Definition trunc (x : Qc) : Z := Z.quot (Qnum x) (Zpos (Qden x)).

#[global] Instance exact_float : PyFloat Qc := {|
  int_fits _ := true;
  int_to_float := of_Z;
  float_add := Qcplus;
  float_mul := Qcmult;
  float_div := div;
  int_truediv a b := Ok (of_Z a / of_Z b)%Qc;
  float_trunc x := Ok (trunc x);
|}.

(** The decimal literal [n/d]. *)
Definition lit (n : Z) (d : positive) : Qc := Q2Qc (n # d).

End Exact.

(** ** IEEE 754 binary64 *)

(** CPython's [float] is the C [double]: 53 bits of precision, exponents up
    to 1024, every operation rounded to nearest, ties to even. *)
Module Binary64.

Definition prec : Z := 53.
Definition emax : Z := 1024.

Abbreviation b64 := spec_float.

Definition add : b64 → b64 → b64 := SFadd prec emax.
Definition mul : b64 → b64 → b64 := SFmul prec emax.

Definition is_zero (x : b64) : bool :=
  match x with S754_zero _ => true | _ => false end.

(** [x / y] raises [ZeroDivisionError] when [y == 0.0]. *)
Definition div (x y : b64) : option b64 :=
  if is_zero y then None else Some (SFdiv prec emax x y).

(** [PyLong_AsDouble]: the nearest double; an integer that rounds to
    [2^1024] or beyond does not convert. *)
Definition fits (n : Z) : bool := Z.abs n <? 2 ^ 1024 - 2 ^ 970.

Definition of_Z (n : Z) : b64 := binary_normalize prec emax n 0 false.

(** [a / b] on integers is the correctly rounded quotient.  The quotient
    of the magnitudes is computed to at least 55 bits, and one more bit
    records whether the division left a remainder, so that the rounding
    of [binary_normalize] sees on which side of a tie the quotient
    lies. *)
Definition truediv (a b : Z) : result b64 :=
  let s := Z.max 0 (55 + Z.log2 (Z.abs b) - Z.log2 (Z.abs a)) in
  let q := Z.shiftl (Z.abs a) s / Z.abs b in
  let r := Z.shiftl (Z.abs a) s mod Z.abs b in
  let m := 2 * q + (if r =? 0 then 0 else 1) in
  let neg := xorb (a <? 0) (b <? 0) in
  match binary_normalize prec emax (if neg then - m else m) (- s - 1) neg with
  | S754_infinity _ => Err OverflowError
  | x => Ok x
  end.

(** [int(x)]: towards zero; [nan] and the infinities do not convert. *)
Definition trunc (x : b64) : result Z :=
  match x with
  | S754_zero _ => Ok 0
  | S754_nan => Err ValueError
  | S754_infinity _ => Err OverflowError
  | S754_finite s m e =>
      let v := if 0 <=? e then Z.shiftl (Zpos m) e
               else Z.shiftr (Zpos m) (- e) in
      Ok (if s then - v else v)
  end.

#[global] Instance binary64_float : PyFloat b64 := {|
  int_fits := fits;
  int_to_float := of_Z;
  float_add := add;
  float_mul := mul;
  float_div := div;
  int_truediv := truediv;
  float_trunc := trunc;
|}.

(** The decimal literal [n/d]: CPython reads a literal as the nearest
    double, which is the correctly rounded quotient. *)
Definition lit (n : Z) (d : positive) : b64 :=
  match truediv n (Zpos d) with Ok x => x | Err _ => S754_nan end.

End Binary64.

(** ** A small set of collaborators, to run the client on *)

Module Demo.

(** A network with one weight; an epoch of training adds one to it and
    reports one row. *)
#[global] Instance demo : Collaborators Binary64.b64 := {|
  Net := Z;
  NDArrays := Z;
  DataLoader := list Z;
  MetricsList := list Z;
  FileSystem := gmap string (list Z);
  helper_get_parameters n := n;
  helper_set_parameters _ p := Ok p;
  train n _ epochs _ := Ok (n + epochs, seqZ 1 epochs);
  test n _ _ := Ok (n, (Binary64.lit 1 2, Binary64.lit 3 4, [n]));
  save_metrics_to_csv name rows fs := Ok (<[name := rows]> fs);
  dataset_len d := Z.of_nat (length d);
  load_datasets _ := ([1; 2; 3], [4; 5]);
  load_seperate_datasets n _ :=
    ((λ i, [i; i]) <$> seqZ 0 n, (λ i, [i]) <$> seqZ 0 n);
  cuda_is_available := false;
  int_max_str_digits := 4300;
|}.

(** The network with weight [n]. *)
Definition network (n : Z) : Net := n.

(** The parameters with weight [n]. *)
Definition weights (n : Z) : NDArrays := n.

Definition client7 : CifarClient :=
  {| client_id := IdInt 7; net := 0;
     train_dataloader := [1; 2; 3]; test_dataloader := [4; 5] |}.

(** A store in which the dict at address 1 is the configuration of round
    3. *)
Definition world : World :=
  {| self := client7; heap := {[ 1%positive := fit_config 3 (Some 2) ]};
     files := ∅; stdout := [] |}.

End Demo.

(** ** What the aggregation formula denotes *)

(** [Σ_c n_c], the denominator. *)
Definition Zsum (l : list Z) : Z := foldr Z.add 0 l.

Section WeightedMean.
Context {F : Type} `{PyFloat F}.

(** The product [n_c * metric_c] of one result. *)
Definition weighted (r : Z * F) : F := float_mul (int_to_float r.1) r.2.

(** [metric = Σ_c (n_c * metric_c) / Σ_c n_c] evaluated in the arithmetic
    of [F]: the products are accumulated in list order on the start value
    [0], and the sum is divided by the converted total count.  [None]
    when the total converts to zero. *)
Definition weighted_mean (rs : list (Z * F)) : option F :=
  float_div (fold_left float_add (weighted <$> rs) (int_to_float 0))
            (int_to_float (Zsum rs.*1)).

(** [ms] is a list of results whose metrics report the float accuracies
    [rs], as the metrics returned by [CifarClient.evaluate] do. *)
Definition reports (ms : list (Z * Metrics F)) (rs : list (Z * F)) : Prop :=
  Forall2 (λ m r, m.1 = r.1 ∧ m.2 !! "accuracy" = Some (SFloat r.2)) ms rs.

(** No conversion of a sample count, or of the total, overflows. *)
Definition counts_fit (ns : list Z) : Prop :=
  Forall (λ n, int_fits n = true) ns ∧ int_fits (Zsum ns) = true.

End WeightedMean.

(** In exact arithmetic the formula is the rational number
    [(Σ_c n_c * a_c) / (Σ_c n_c)], whatever the order of the results. *)
Definition Qcsum (l : list Qc) : Qc := foldr Qcplus 0%Qc l.

Definition exact_weighted_mean (rs : list (Z * Qc)) : Qc :=
  (Qcsum ((λ r, Exact.of_Z r.1 * r.2) <$> rs) / Exact.of_Z (Zsum rs.*1))%Qc.

(** The properties of the arithmetic that the aggregation relies on: an
    integer below [2^126] converts (the length of a dataset is below
    [2^63], and so is the length of a list of results), and a converted
    integer is zero exactly when the integer is. *)
Class PyFloatLaws (F : Type) `{PyFloat F} : Prop := {
  int_fits_len : ∀ n, Z.abs n < 2 ^ 126 → int_fits n = true;
  float_div_by_int : ∀ x n, float_div x (int_to_float n) = None ↔ n = 0;
}.

(** ** The vocabulary of the statements *)

(** Scenario A of the specification: client A reports [a] on 100 examples
    and client B reports [b] on 300. *)
Definition scenario_A {F} (a b : F) : list (Z * Metrics F) :=
  [ (100, {[ "accuracy" := SFloat a ]}); (300, {[ "accuracy" := SFloat b ]}) ].

(** The accumulator of [sum] starts as the integer [0] and stays a
    number. *)
Definition numeric {F} (v : Scalar F) : Prop :=
  match v with SInt _ | SFloat _ => True | _ => False end.

Section Vocabulary.
Context {F : Type} `{PyFloat F} `{Collaborators F}.

(** Two lists of results with the same sample counts and the same
    entries under ["accuracy"]. *)
Definition same_accuracy (ms ms' : list (Z * Metrics F)) : Prop :=
  Forall2 (λ r r', r.1 = r'.1 ∧ r.2 !! "accuracy" = r'.2 !! "accuracy") ms ms'.

(** A result whose metrics have no ["accuracy"] key. *)
Definition lacks_accuracy (r : Z * Metrics F) : Prop :=
  r.2 !! "accuracy" = None.

(** A result as [CifarClient.evaluate] returns it: a float under
    ["accuracy"], on a sample count that converts to float. *)
Definition float_accuracy (r : Z * Metrics F) : Prop :=
  int_fits r.1 = true ∧ ∃ a, r.2 !! "accuracy" = Some (SFloat a).

(** [m] leaves the dict at the address [config] as it is. *)
Definition keeps (config : positive) {A} (m : M A) : Prop :=
  ∀ w, is_Some (heap w !! config) → heap (m w).2 !! config = heap w !! config.

End Vocabulary.

(** ** The values of doubles, and closeness *)

(** The magnitude and the signed value of a double, as rational numbers
    (0 for the infinities and [nan]). *)
Definition mag (x : Binary64.b64) : Q :=
  match x with
  | S754_finite _ m e => inject_Z (Zpos m) * 2 ^ e
  | _ => 0
  end.

Definition val (x : Binary64.b64) : Q :=
  match x with
  | S754_finite true _ _ => - mag x
  | _ => mag x
  end.

(** A double of 53 digits, and the sign of a double. *)
Definition normal (x : Binary64.b64) : Prop :=
  match x with
  | S754_finite _ m _ => 2 ^ 52 ≤ Zpos m < 2 ^ 53
  | _ => False
  end.

Definition sign_of (x : Binary64.b64) : bool :=
  match x with
  | S754_finite s _ _ | S754_zero s | S754_infinity s => s
  | S754_nan => false
  end.

(** One rounding changes a value by a factor of at most [1 + 2^-52]. *)
Definition rnd : Q := 1 + (1 # 4503599627370496).

(** [y] is [x] after at most [k] roundings: each is at most
    [(1 + 2^-52)^k] times the other. *)
Definition near (k : nat) (x y : Q) : Prop :=
  (x <= y * rnd ^ Z.of_nat k ∧ y <= x * rnd ^ Z.of_nat k)%Q.

(** An accuracy that the error analysis covers: a zero, or a finite
    double of sign [s] with a magnitude from [2^-800] to [2^800]. *)
Definition in_range (s : bool) (a : Binary64.b64) : Prop :=
  match a with
  | S754_zero _ => True
  | S754_finite s' _ _ => s' = s ∧ (2 ^ (-800) <= mag a ∧ mag a <= 2 ^ 800)%Q
  | _ => False
  end.

(** The double [f] carries the exact magnitude [X] after at most [k]
    roundings: a zero for [0], and otherwise a finite double of sign [s]
    for an [X] of at least [lo]. *)
Definition tracks (s : bool) (lo : Q) (k : nat) (X : Q) (f : Binary64.b64)
    : Prop :=
  match f with
  | S754_zero _ => (X == 0)%Q
  | S754_finite s' _ _ => s' = s ∧ (lo <= X)%Q ∧ near k X (mag f)
  | _ => False
  end.

Definition Qsum (l : list Q) : Q := foldr Qplus 0%Q l.

(** [y] is [x] within the relative tolerance [t]: [|y - x| <= t * |x|]. *)
Definition within (t x y : Q) : Prop := (Qabs (y - x) <= t * Qabs x)%Q.

(** The tolerance of the aggregation of [K] results: [(K + 4) / 2^50]. *)
Definition tolerance (K : nat) : Q :=
  (inject_Z (Z.of_nat (K + 4)) * (1 # 1125899906842624))%Q.

(** The weighted mean [Σ_c n_c * a_c / Σ_c n_c] of the values of the
    reported doubles, computed exactly. *)
Definition mean_value (rs : list (Z * Binary64.b64)) : Q :=
  (Qsum ((λ r, inject_Z r.1 * val r.2) <$> rs) / inject_Z (Zsum rs.*1))%Q.

(** * Properties *)

(** ** Lemmas on the Python operations *)

Section PythonLemmas.
Context {F : Type} `{PyFloat F}.

Lemma weighted_average_unfold metrics :
  weighted_average metrics
  = accuracies ← comprehension accuracy_product metrics;
    total ← py_sum accuracies;
    count ← py_sum ((λ '(num_examples, _), SInt num_examples) <$> metrics);
    accuracy ← py_truediv total count;
    Ok {[ "accuracy" := accuracy ]}.
Proof. done. Qed.

Lemma comprehension_Ok {A B} (f : A → result B) l g :
  Forall (λ x, f x = Ok (g x)) l → comprehension f l = Ok (g <$> l).
Proof.
  induction 1 as [|x l Hx _ IH]; [done|].
  simpl. rewrite Hx. simpl. by rewrite IH.
Qed.

Lemma sum_from_ints a (ns : list Z) :
  sum_from (F:=F) (SInt a) (SInt <$> ns) = Ok (SInt (a + Zsum ns)).
Proof.
  revert a. induction ns as [|n ns IH]; intros a; simpl.
  - by rewrite Z.add_0_r.
  - rewrite IH. f_equal. f_equal. lia.
Qed.

Lemma sum_from_floats a (ps : list F) :
  sum_from (SFloat a) (SFloat <$> ps) = Ok (SFloat (fold_left float_add ps a)).
Proof.
  revert a. induction ps as [|p ps IH]; intros a; [done|].
  simpl. by rewrite IH.
Qed.

Lemma py_sum_examples {A} (ms : list (Z * A)) :
  py_sum (F:=F) ((λ '(num_examples, _), SInt num_examples) <$> ms)
  = Ok (SInt (Zsum ms.*1)).
Proof.
  unfold py_sum.
  replace ((λ '(num_examples, _), SInt num_examples) <$> ms)
    with (SInt (F:=F) <$> ms.*1).
  - by rewrite sum_from_ints.
  - rewrite <-list_fmap_compose. apply list_fmap_ext. by intros _ [n m] _.
Qed.

Lemma py_sum_floats (ps : list F) :
  ps ≠ [] → int_fits 0 = true →
  py_sum (SFloat <$> ps) = Ok (SFloat (fold_left float_add ps (int_to_float 0))).
Proof.
  intros Hne H0. destruct ps as [|p ps]; [done|].
  unfold py_sum. simpl. unfold float_of_int. rewrite H0. simpl.
  apply sum_from_floats.
Qed.

Lemma reports_counts (ms : list (Z * Metrics F)) (rs : list (Z * F)) :
  reports ms rs → ms.*1 = rs.*1.
Proof.
  induction 1 as [|m r ms rs [Hn _] _ IH]; [done|].
  rewrite !fmap_cons. by f_equal.
Qed.

Lemma reports_products (ms : list (Z * Metrics F)) (rs : list (Z * F)) :
  reports ms rs → Forall (λ n, int_fits n = true) rs.*1 →
  comprehension accuracy_product ms = Ok (SFloat <$> (weighted <$> rs)).
Proof.
  induction 1 as [|[n m] [n' a] ms rs [Hn Ha] _ IH]; [done|].
  simpl in Hn, Ha. subst n'. rewrite fmap_cons.
  intros Hf. inversion Hf as [|? ? Hfit Hfits]; subst. csimpl.
  rewrite (IH Hfits). unfold getitem. rewrite Ha. csimpl.
  unfold float_of_int. by rewrite Hfit.
Qed.

(** The aggregation of float accuracies, step by step. *)
Lemma weighted_average_floats (ms : list (Z * Metrics F)) (rs : list (Z * F)) :
  reports ms rs → rs ≠ [] → counts_fit rs.*1 → int_fits 0 = true →
  weighted_average ms
  = v ← of_option ZeroDivisionError (weighted_mean rs);
    Ok {[ "accuracy" := SFloat v ]}.
Proof.
  intros Hrep Hne [Hfits Hfit] H0. rewrite weighted_average_unfold.
  rewrite (reports_products _ _ Hrep Hfits). csimpl.
  rewrite py_sum_floats by (by destruct rs). csimpl.
  rewrite py_sum_examples. csimpl.
  rewrite (reports_counts _ _ Hrep). unfold py_truediv. csimpl.
  unfold float_of_int. rewrite Hfit. csimpl. unfold weighted_mean.
  by destruct (float_div _ _).
Qed.

End PythonLemmas.

(** ** The two arithmetics satisfy the laws *)

(** The binary64 operations on values computed with CPython 3.11:
    [float(2**53 + 1)], [float(2**53 + 3)], [1 / 3], [2**70 / 3],
    [3 / 10**320] (subnormal), [1 / 10**330], [0 / -5], [10**400 / 3],
    [float(2**1024 - 2**970)], [int(2.7)], [int(-2.7)] and [0.1 * 3]. *)
Example binary64_examples :
  Binary64.of_Z (2 ^ 53 + 1) = S754_finite false 4503599627370496 1
  ∧ Binary64.of_Z (2 ^ 53 + 3) = S754_finite false 4503599627370498 1
  ∧ Binary64.truediv 1 3 = Ok (S754_finite false 6004799503160661 (-54))
  ∧ Binary64.truediv (2 ^ 70) 3 = Ok (S754_finite false 6004799503160661 16)
  ∧ Binary64.truediv 3 (10 ^ 320) = Ok (S754_finite false 6072 (-1074))
  ∧ Binary64.truediv 1 (10 ^ 330) = Ok (S754_zero false)
  ∧ Binary64.truediv 0 (-5) = Ok (S754_zero true)
  ∧ Binary64.truediv (10 ^ 400) 3 = Err OverflowError
  ∧ Binary64.fits (2 ^ 1024 - 2 ^ 970) = false
  ∧ Binary64.fits (2 ^ 1024 - 2 ^ 970 - 1) = true
  ∧ Binary64.trunc (Binary64.lit 27 10) = Ok 2
  ∧ Binary64.trunc (Binary64.lit (-27) 10) = Ok (-2)
  ∧ Binary64.mul (Binary64.of_Z 3) (Binary64.lit 1 10)
    = S754_finite false 5404319552844596 (-54).
Proof. by vm_compute. Qed.

Lemma exact_of_Z_zero n : Exact.of_Z n = 0%Qc ↔ n = 0.
Proof.
  unfold Exact.of_Z. by rewrite <-Z2Qc_inj_0, Z2Qc_inj_iff.
Qed.

#[global] Instance exact_laws : PyFloatLaws Qc.
Proof.
  split.
  - done.
  - intros x n. simpl. unfold Exact.div. rewrite <-exact_of_Z_zero.
    by case_decide.
Qed.

(** A conversion to binary64 never rounds an integer that is not zero to
    zero: the mantissa keeps its leading bit through the shifts of
    [binary_round]. *)
Section Binary64Rounding.
Import Binary64.

Let emin : Z := SpecFloat.emin prec emax.

Lemma digits2_pos_bounds p :
  2 ^ (Zpos (digits2_pos p) - 1) ≤ Zpos p < 2 ^ Zpos (digits2_pos p).
Proof.
  induction p as [p IH|p IH|]; simpl digits2_pos.
  - rewrite Pos2Z.inj_succ, Z.pow_succ_r by lia.
    replace (Z.succ (Zpos (digits2_pos p)) - 1)
      with (Z.succ (Zpos (digits2_pos p) - 1)) by lia.
    rewrite Z.pow_succ_r by lia. lia.
  - rewrite Pos2Z.inj_succ, Z.pow_succ_r by lia.
    replace (Z.succ (Zpos (digits2_pos p)) - 1)
      with (Z.succ (Zpos (digits2_pos p) - 1)) by lia.
    rewrite Z.pow_succ_r by lia. lia.
  - simpl. lia.
Qed.

Lemma shr_1_m r : 0 ≤ shr_m r → shr_m (shr_1 r) = shr_m r / 2.
Proof.
  destruct r as [m r s]. simpl. intros Hm.
  destruct m as [|[p|p|]|]; simpl; try done.
  - apply Z.div_unique with 1; lia.
  - apply Z.div_unique with 0; lia.
Qed.

Lemma iter_pos_shr_m p r :
  0 ≤ shr_m r → shr_m (SpecFloat.iter_pos shr_1 p r) = shr_m r / 2 ^ Zpos p.
Proof.
  revert r. induction p as [p IH|p IH|]; intros r Hr; simpl SpecFloat.iter_pos.
  - assert (0 ≤ shr_m (shr_1 r)) as H1.
    { rewrite shr_1_m by done. by apply Z.div_pos. }
    assert (0 ≤ shr_m (SpecFloat.iter_pos shr_1 p (shr_1 r))) as H2.
    { rewrite IH by done. apply Z.div_pos; lia. }
    rewrite IH, IH, shr_1_m by done.
    rewrite !Z.div_div by lia. f_equal.
    replace (Zpos p~1) with (1 + Zpos p + Zpos p) by lia.
    rewrite !Z.pow_add_r by lia. lia.
  - assert (0 ≤ shr_m (SpecFloat.iter_pos shr_1 p r)) as H1.
    { rewrite IH by done. apply Z.div_pos; lia. }
    rewrite IH, IH by done. rewrite Z.div_div by lia. f_equal.
    replace (Zpos p~0) with (Zpos p + Zpos p) by lia.
    by rewrite Z.pow_add_r by lia.
  - by apply shr_1_m.
Qed.

Lemma shr_record_of_loc_m m l : shr_m (shr_record_of_loc m l) = m.
Proof. by destruct l as [|[]]. Qed.

Lemma shr_fexp_pos m e l :
  0 < m → emin ≤ e →
  0 < shr_m (shr_fexp prec emax m e l).1 ∧ emin ≤ (shr_fexp prec emax m e l).2.
Proof.
  intros Hm He. unfold shr_fexp, shr.
  destruct (fexp prec emax (Zdigits2 m + e) - e) as [|k|k] eqn:Hk;
    simpl; rewrite ?shr_record_of_loc_m; try done.
  rewrite iter_pos_shr_m by (rewrite shr_record_of_loc_m; lia).
  rewrite shr_record_of_loc_m. split; [|lia].
  destruct m as [|q|q]; try done. simpl Zdigits2 in Hk.
  pose proof (digits2_pos_bounds q) as [Hlo _].
  unfold fexp in Hk. fold emin in Hk.
  assert (Zpos k ≤ Zpos (digits2_pos q) - 1) as Hle by (unfold prec in *; lia).
  apply Z.div_str_pos. split; [lia|].
  etrans; [|exact Hlo]. apply Z.pow_le_mono_r; lia.
Qed.

Lemma round_nearest_even_pos m l : 0 < m → 0 < round_nearest_even m l.
Proof.
  intros Hm. destruct l as [|[]]; simpl; try lia. destruct (Z.even m); lia.
Qed.

Lemma binary_round_aux_nonzero s m e l :
  0 < m → emin ≤ e → is_zero (binary_round_aux prec emax s m e l) = false.
Proof.
  intros Hm He. unfold binary_round_aux.
  destruct (shr_fexp_pos m e l Hm He) as [H1 He1].
  destruct (shr_fexp prec emax m e l) as [r1 e1]. simpl in H1, He1.
  pose proof (round_nearest_even_pos _ (loc_of_shr_record r1) H1) as H2.
  destruct (shr_fexp_pos _ e1 loc_Exact H2 He1) as [H3 _].
  destruct (shr_fexp prec emax _ e1 loc_Exact) as [r2 e2]. simpl in H3.
  destruct (shr_m r2); try done. by case_match.
Qed.

Lemma of_Z_nonzero n : n ≠ 0 → is_zero (of_Z n) = false.
Proof.
  assert (∀ s p, is_zero (binary_round prec emax s p 0) = false) as Hround.
  { intros s p. unfold binary_round, shl_align.
    destruct (fexp prec emax (Zpos (digits2_pos p) + 0) - 0) as [|d|d] eqn:Hd;
      apply binary_round_aux_nonzero; try done.
    unfold fexp. fold emin. lia. }
  intros Hn. destruct n; [done|apply Hround..].
Qed.

End Binary64Rounding.

#[global] Instance binary64_laws : PyFloatLaws Binary64.b64.
Proof.
  split.
  - intros n Hn. simpl. unfold Binary64.fits. apply Z.ltb_lt.
    eapply Z.lt_trans; [exact Hn|]. by vm_compute.
  - intros x n. simpl. unfold Binary64.div. split.
    + intros Hdiv. destruct (decide (n = 0)) as [|Hn]; [done|].
      by rewrite (of_Z_nonzero n Hn) in Hdiv.
    + by intros ->.
Qed.

(** ** Sample counts that come from [len] *)

(** [len(...)] is at most [sys.maxsize = 2^63 - 1], for a dataset and for
    the list of results: such counts, and their total, always convert. *)
Lemma Zsum_bound (ns : list Z) :
  Forall (λ n, 0 ≤ n < 2 ^ 63) ns →
  0 ≤ Zsum ns ≤ Z.of_nat (length ns) * 2 ^ 63.
Proof.
  induction 1 as [|n ns Hn _ IH]; simpl Zsum; simpl length; [done|].
  rewrite Nat2Z.inj_succ, Z.mul_succ_l.
  set (k := Z.of_nat (length ns) * 2 ^ 63) in *. lia.
Qed.

Lemma dataset_lengths_fit {F} `{PyFloatLaws F} (ns : list Z) :
  Forall (λ n, 0 ≤ n < 2 ^ 63) ns → Z.of_nat (length ns) < 2 ^ 63 →
  counts_fit ns.
Proof.
  intros Hns Hlen. split.
  - eapply List.Forall_impl; [|exact Hns]. intros n Hn. apply int_fits_len.
    assert (2 ^ 63 < 2 ^ 126) as Hpow by done.
    revert Hn Hpow. generalize (2 ^ 63) (2 ^ 126). lia.
  - apply int_fits_len. pose proof (Zsum_bound ns Hns) as Hsum.
    assert (2 ^ 63 * 2 ^ 63 = 2 ^ 126) as Hpow by done.
    assert (0 < 2 ^ 63) as Hpos by done.
    revert Hsum Hlen Hpow Hpos. generalize (2 ^ 63) (2 ^ 126) (Zsum ns).
    intros a b s Hsum Hlen Hpow Hpos. nia.
Qed.

(** ** The aggregated accuracy is the weighted mean *)

Lemma fold_left_Qcplus (l : list Qc) (a : Qc) :
  fold_left Qcplus l a = (a + Qcsum l)%Qc.
Proof.
  revert a. induction l as [|x l IH]; intros a; simpl.
  - ring.
  - rewrite IH. ring.
Qed.

(** In exact arithmetic the evaluation order does not matter: the formula
    is the rational weighted mean. *)
Lemma weighted_mean_exact (rs : list (Z * Qc)) :
  Zsum rs.*1 ≠ 0 → weighted_mean rs = Some (exact_weighted_mean rs).
Proof.
  intros Hne. unfold weighted_mean. simpl. unfold Exact.div.
  case_decide as Hz; [by apply exact_of_Z_zero in Hz|].
  f_equal. unfold exact_weighted_mean. f_equal.
  rewrite fold_left_Qcplus.
  unfold Exact.of_Z. by rewrite Z2Qc_inj_0, Qcplus_0_l.
Qed.

Lemma weighted_average_mean {F} `{PyFloatLaws F}
    (ms : list (Z * Metrics F)) (rs : list (Z * F)) :
  reports ms rs → rs ≠ [] → Zsum rs.*1 ≠ 0 → counts_fit rs.*1 →
  ∃ v, weighted_mean rs = Some v
     ∧ weighted_average ms = Ok {[ "accuracy" := SFloat v ]}.
Proof.
  intros Hrep Hne Htot Hfit.
  rewrite (weighted_average_floats ms rs) by (try apply int_fits_len; done).
  destruct (weighted_mean rs) as [v|] eqn:Hv; [by exists v|].
  by apply float_div_by_int in Hv.
Qed.



(** ** Zero total weight *)

(** The claim C2 fails: a client that reports accuracy 0.8 on no example.
    [0 * 0.8] is [0.0], the sum of the counts is the integer [0], and
    [0.0 / 0] raises. *)
Lemma weighted_average_zero_total_counterexample :
  weighted_average [ (0, {[ "accuracy" := SFloat (Binary64.lit 8 10) ]}) ]
  = Err ZeroDivisionError.
Proof. by vm_compute. Qed.

(** C2, amended. For every list of evaluation results in which every
    sample count is 0 (the empty list too), [weighted_average] raises
    [ZeroDivisionError]: it reports no accuracy, NaN or other. *)
Theorem weighted_average_zero_total {F} `{PyFloatLaws F}
    (ms : list (Z * Metrics F)) (rs : list (Z * F)) :
  reports ms rs → Forall (λ n, n = 0) rs.*1 →
  weighted_average ms = Err ZeroDivisionError.
Proof.
  intros Hrep Hzero.
  assert (Zsum rs.*1 = 0) as Htot.
  { induction Hzero as [|n ns -> _ IH]; [done|]. simpl. by rewrite IH. }
  destruct (decide (rs = [])) as [->|Hne].
  { by inversion Hrep. }
  rewrite (weighted_average_floats ms rs); try done.
  - unfold weighted_mean. rewrite Htot.
    by rewrite (proj2 (float_div_by_int _ 0)).
  - split.
    + eapply List.Forall_impl; [|exact Hzero]. intros n ->. by apply int_fits_len.
    + rewrite Htot. by apply int_fits_len.
  - by apply int_fits_len.
Qed.

Lemma weighted_average_zero_total_witness :
  weighted_average
    [ (0, {[ "accuracy" := SFloat (Binary64.lit 8 10) ]});
      (0, {[ "accuracy" := SFloat (Binary64.lit 6 10) ]}) ]
  = Err ZeroDivisionError.
Proof.
  apply (weighted_average_zero_total _
           [(0, Binary64.lit 8 10); (0, Binary64.lit 6 10)]).
  - by repeat constructor.
  - by repeat constructor.
Defined.

(** ** The rounding error of the binary64 operations *)

(** The mantissa that [binary_round_aux] returns. *)
Section Binary64Cut.
Import Binary64.

Lemma Zdigits2_unique (x k : Z) :
  2 ^ (k - 1) ≤ x < 2 ^ k → 0 < k → Zdigits2 x = k.
Proof.
  intros [Hlo Hhi] Hk.
  assert (0 < x) as Hx by (pose proof (Z.pow_pos_nonneg 2 (k - 1)); lia).
  destruct x as [|p|p]; try lia. simpl.
  pose proof (digits2_pos_bounds p) as [Hlo' Hhi'].
  set (d := Zpos (digits2_pos p)) in *.
  destruct (Z.lt_trichotomy d k) as [Hlt|[Heq|Hgt]]; [|done|].
  - assert (2 ^ d ≤ 2 ^ (k - 1)) by (apply Z.pow_le_mono_r; lia). lia.
  - assert (2 ^ k ≤ 2 ^ (d - 1)) by (apply Z.pow_le_mono_r; lia). lia.
Qed.

Lemma Zdigits2_bounds (x : Z) :
  0 < x → 2 ^ (Zdigits2 x - 1) ≤ x < 2 ^ Zdigits2 x ∧ 0 < Zdigits2 x.
Proof.
  destruct x as [|p|p]; try lia. intros _. simpl.
  split; [apply digits2_pos_bounds|lia].
Qed.

(** The first shift of [binary_round_aux] on a mantissa of at least 53
    digits, in the range of the normal numbers: the mantissa is cut to
    its 53 leading digits. *)
Lemma shr_fexp_normal (m e : Z) (l : location) :
  0 < m → 53 ≤ Zdigits2 m → -1021 ≤ Zdigits2 m + e →
  let d := Zdigits2 m - 53 in
  (shr_fexp prec emax m e l).2 = e + d
  ∧ shr_m (shr_fexp prec emax m e l).1 = m / 2 ^ d
  ∧ 2 ^ 52 ≤ m / 2 ^ d < 2 ^ 53.
Proof.
  intros Hm HD He d. destruct (Zdigits2_bounds m Hm) as [[Hlo Hhi] _].
  assert (fexp prec emax (Zdigits2 m + e) - e = d) as Hd.
  { unfold fexp, SpecFloat.emin, prec, emax, d. lia. }
  assert (2 ^ 52 ≤ m / 2 ^ d < 2 ^ 53) as Hm1.
  { assert (0 < 2 ^ d) by (apply Z.pow_pos_nonneg; lia).
    assert (2 ^ (Zdigits2 m - 1) = 2 ^ 52 * 2 ^ d) as Hlo'.
    { rewrite <-Z.pow_add_r by lia. f_equal. lia. }
    assert (2 ^ Zdigits2 m = 2 ^ 53 * 2 ^ d) as Hhi'.
    { rewrite <-Z.pow_add_r by lia. f_equal. lia. }
    split.
    - apply Z.div_le_lower_bound; lia.
    - apply Z.div_lt_upper_bound; lia. }
  unfold shr_fexp. rewrite Hd. unfold shr.
  destruct d as [|p|p] eqn:Hp; try lia.
  - simpl. rewrite shr_record_of_loc_m, Z.div_1_r in *. split_and!; lia.
  - cbn [fst snd]. rewrite iter_pos_shr_m by (rewrite shr_record_of_loc_m; lia).
    rewrite shr_record_of_loc_m. split_and!; lia.
Qed.

Lemma round_nearest_even_cases (m : Z) (l : location) :
  round_nearest_even m l = m ∨ round_nearest_even m l = m + 1.
Proof. destruct l as [|[]]; simpl; auto. destruct (Z.even m); auto. Qed.

(** The second shift, after rounding: a mantissa of 53 digits stays, and
    [2^53] becomes [2^52] with the exponent one higher. *)
Lemma shr_fexp_rounded (m e : Z) :
  2 ^ 52 ≤ m ≤ 2 ^ 53 → -1074 ≤ e →
  let r := shr_fexp prec emax m e loc_Exact in
  (m < 2 ^ 53 ∧ shr_m r.1 = m ∧ r.2 = e)
  ∨ (m = 2 ^ 53 ∧ shr_m r.1 = 2 ^ 52 ∧ r.2 = e + 1).
Proof.
  intros [Hlo Hhi] He r. unfold r, shr_fexp.
  destruct (decide (m = 2 ^ 53)) as [->|Hne].
  - right. split; [done|].
    replace (Zdigits2 (2 ^ 53)) with 54 by done.
    replace (fexp prec emax (54 + e) - e) with 1
      by (unfold fexp, SpecFloat.emin, prec, emax; lia).
    split; [by vm_compute|done].
  - left. split; [lia|].
    rewrite (Zdigits2_unique m 53) by lia.
    replace (fexp prec emax (53 + e) - e) with 0
      by (unfold fexp, SpecFloat.emin, prec, emax; lia).
    by simpl.
Qed.

(** [binary_round_aux] on a mantissa of at least 53 digits, for a value
    in the range of the normal numbers: the result is finite, with a
    mantissa of 53 digits, and it is the mantissa cut to 53 digits, or
    one unit in the last place more. *)
Lemma binary_round_aux_finite (s : bool) (m e : Z) (l : location) :
  0 < m → 53 ≤ Zdigits2 m → -1021 ≤ Zdigits2 m + e ≤ 1023 →
  let d := Zdigits2 m - 53 in
  ∃ (m' : positive) (e' m2 : Z),
    binary_round_aux prec emax s m e l = S754_finite s m' e'
    ∧ 2 ^ 52 ≤ Zpos m' < 2 ^ 53
    ∧ (m2 = m / 2 ^ d ∨ m2 = m / 2 ^ d + 1)
    ∧ 2 ^ 52 ≤ m / 2 ^ d < 2 ^ 53
    ∧ ((Zpos m' = m2 ∧ e' = e + d) ∨ (2 * Zpos m' = m2 ∧ e' = e + d + 1)).
Proof.
  intros Hm HD [He1 He2] d. unfold binary_round_aux.
  destruct (shr_fexp_normal m e l Hm HD He1) as (He' & Hm1 & Hrange).
  fold d in He', Hm1, Hrange.
  destruct (shr_fexp prec emax m e l) as [r1 e1]. simpl in He', Hm1.
  set (m2 := round_nearest_even (shr_m r1) (loc_of_shr_record r1)).
  assert (m2 = m / 2 ^ d ∨ m2 = m / 2 ^ d + 1) as Hm2.
  { rewrite <-Hm1. apply round_nearest_even_cases. }
  destruct (shr_fexp_rounded m2 e1) as [(Hlt & Hm3 & He3)|(Heq & Hm3 & He3)];
    [lia|lia|..];
    destruct (shr_fexp prec emax m2 e1 loc_Exact) as [r3 e3];
    simpl in Hm3, He3; rewrite Hm3.
  - destruct m2 as [|m'|m'] eqn:Hm'; try lia.
    destruct (Z.leb_spec e3 (emax - prec)) as [_|Hover];
      [|unfold emax, prec in Hover; lia].
    exists m', e3, (Zpos m'). split_and!; try done; try lia; left; lia.
  - destruct (Z.leb_spec e3 (emax - prec)) as [_|Hover];
      [|unfold emax, prec in Hover; lia].
    exists (2 ^ 52)%positive, e3, m2. split_and!; try done; try lia; right; lia.
Qed.

End Binary64Cut.

Section Powers.
#[local] Arguments Qpower : simpl never.
#[local] Arguments Z.pow : simpl never.
#[local] Open Scope Q_scope.

Lemma pow2_pos (e : Z) : 0 < 2 ^ e.
Proof. by apply Qpower_0_lt. Qed.

Lemma pow2_add (a b : Z) : 2 ^ (a + b) == 2 ^ a * 2 ^ b.
Proof. by apply Qpower_plus. Qed.

Lemma pow2_le (a b : Z) : (a ≤ b)%Z → 2 ^ a <= 2 ^ b.
Proof. intros. by apply Qpower_le_compat_l. Qed.

Lemma pow2_lt_inv (a b : Z) : 2 ^ a < 2 ^ b → (a < b)%Z.
Proof. intros. by apply (Qpower_lt_compat_l_inv 2). Qed.

Lemma inject_Z_pow2 (d : Z) : (0 ≤ d)%Z → inject_Z (2 ^ d) == 2 ^ d.
Proof. intros. by rewrite Zpower_Qpower. Qed.

End Powers.

Section RoundingError.
#[local] Arguments Qpower : simpl never.
#[local] Arguments Z.pow : simpl never.
Import Binary64.
#[local] Open Scope Q_scope.

Lemma mantissa_bounds (m e : Z) :
  (0 < m)%Z →
  2 ^ (Zdigits2 m - 1 + e) <= inject_Z m * 2 ^ e
  ∧ inject_Z (m + 1) * 2 ^ e <= 2 ^ (Zdigits2 m + e).
Proof.
  intros Hm. destruct (Zdigits2_bounds m Hm) as [[Hlo Hhi] HD].
  pose proof (pow2_pos e) as He.
  assert (2 ^ (Zdigits2 m - 1 + e) == inject_Z (2 ^ (Zdigits2 m - 1)) * 2 ^ e)
    as -> by (by rewrite pow2_add, inject_Z_pow2 by lia).
  assert (2 ^ (Zdigits2 m + e) == inject_Z (2 ^ Zdigits2 m) * 2 ^ e)
    as -> by (by rewrite pow2_add, inject_Z_pow2 by lia).
  split.
  - apply Qmult_le_compat_r; [|lra]. by rewrite <-Zle_Qle.
  - apply Qmult_le_compat_r; [|lra]. rewrite <-Zle_Qle. lia.
Qed.

Lemma rnd_pow_1 : rnd ^ Z.of_nat 1 == rnd.
Proof. done. Qed.

(** One rounding: [binary_round_aux] on a mantissa of at least 53 digits
    that encloses a value [x] of the normal range returns a double of 53
    digits within one unit in the last place of [x]. *)
Lemma binary_round_aux_near (s : bool) (m e : Z) (l : location) (x : Q) :
  (0 < m)%Z → (53 ≤ Zdigits2 m)%Z →
  2 ^ (-1000) <= x → x <= 2 ^ 1000 →
  inject_Z m * 2 ^ e <= x → x <= inject_Z (m + 1) * 2 ^ e →
  ∃ (m' : positive) (e' : Z),
    binary_round_aux prec emax s m e l = S754_finite s m' e'
    ∧ (2 ^ 52 ≤ Zpos m' < 2 ^ 53)%Z
    ∧ near 1 x (inject_Z (Zpos m') * 2 ^ e').
Proof.
  intros Hm HD Hxlo Hxhi Hlo Hhi.
  destruct (mantissa_bounds m e Hm) as [Hmlo Hmhi].
  assert (-1000 ≤ Zdigits2 m + e)%Z as He1.
  { assert (-1001 < Zdigits2 m + e)%Z; [|lia]. apply pow2_lt_inv.
    assert (2 ^ (-1001) < 2 ^ (-1000)) by (by apply Qpower_lt_compat_l).
    lra. }
  assert (Zdigits2 m + e ≤ 1001)%Z as He2.
  { assert (Zdigits2 m - 1 + e < 1001)%Z; [|lia]. apply pow2_lt_inv.
    assert (2 ^ 1000 < 2 ^ 1001) by (by apply Qpower_lt_compat_l).
    lra. }
  destruct (binary_round_aux_finite s m e l Hm HD) as
    (m' & e' & m2 & -> & Hm' & Hm2 & Hm1 & Hval); [lia|].
  exists m', e'. split; [done|]. split; [done|].
  set (d := (Zdigits2 m - 53)%Z) in *.
  set (m1 := (m / 2 ^ d)%Z) in *.
  assert (0 < 2 ^ d)%Z as Hpd by (apply Z.pow_pos_nonneg; lia).
  assert (m1 * 2 ^ d ≤ m ∧ m + 1 ≤ (m1 + 1) * 2 ^ d)%Z as [Hdiv1 Hdiv2].
  { pose proof (Z.div_mod m (2 ^ d)) as Hdm.
    pose proof (Z.mod_pos_bound m (2 ^ d) Hpd). fold m1 in Hdm. nia. }
  assert (2 ^ (e + d) == inject_Z (2 ^ d) * 2 ^ e) as HP.
  { rewrite pow2_add, inject_Z_pow2 by lia. ring. }
  assert (inject_Z (Zpos m') * 2 ^ e' == inject_Z m2 * 2 ^ (e + d)) as Hv.
  { destruct Hval as [[-> ->]|[<- ->]]; [done|].
    rewrite (pow2_add (e + d) 1), inject_Z_mult.
    change (2 ^ 1) with 2. change (inject_Z 2) with 2. ring. }
  assert (inject_Z m1 * inject_Z (2 ^ d) <= inject_Z m) as Hq1.
  { by rewrite <-inject_Z_mult, <-Zle_Qle. }
  assert (inject_Z m + 1 <= (inject_Z m1 + 1) * inject_Z (2 ^ d)) as Hq2.
  { change 1 with (inject_Z 1).
    by rewrite <-!inject_Z_plus, <-inject_Z_mult, <-Zle_Qle. }
  assert (0 < inject_Z (2 ^ d)) as HB.
  { change 0 with (inject_Z 0). by rewrite <-Zlt_Qlt. }
  assert (4503599627370496 <= inject_Z m1) as Hbig.
  { change 4503599627370496 with (inject_Z (2 ^ 52)). rewrite <-Zle_Qle. lia. }
  rewrite inject_Z_plus in Hhi. change (inject_Z 1) with 1 in Hhi.
  pose proof (pow2_pos e) as HE.
  assert (inject_Z m1 * 2 ^ (e + d) <= x
          ∧ x <= (inject_Z m1 + 1) * 2 ^ (e + d)) as [Hx1 Hx2].
  { rewrite HP. clear HP. revert Hq1 Hq2 HB HE Hlo Hhi.
    generalize (inject_Z m1) (inject_Z (2 ^ d)) (inject_Z m) (2 ^ e).
    intros A B M E **. split; nra. }
  assert (0 < 2 ^ (e + d)) as HP' by apply pow2_pos.
  unfold near. rewrite rnd_pow_1, Hv. unfold rnd.
  destruct Hm2 as [->| ->]; fold m1;
    rewrite ?inject_Z_plus; change (inject_Z 1) with 1;
    revert Hbig Hx1 Hx2 HP'; generalize (inject_Z m1) (2 ^ (e + d));
    intros A P **; split; nra.
Qed.

End RoundingError.

Section Operations.
#[local] Arguments Qpower : simpl never.
#[local] Arguments Z.pow : simpl never.
Import Binary64.

Lemma iter_xO (p d : positive) : Zpos (Pos.iter xO p d) = Zpos p * 2 ^ Zpos d.
Proof.
  induction d as [|d IH] using Pos.peano_ind.
  - simpl. lia.
  - rewrite Pos.iter_succ, Pos2Z.inj_xO, IH, Pos2Z.inj_succ, Z.pow_succ_r by lia.
    lia.
Qed.

(** [shl_align] to a lower exponent keeps the value. *)
Lemma shl_align_value (m : positive) (e e' : Z) :
  e' ≤ e →
  Zpos (shl_align m e e').1 = Zpos m * 2 ^ (e - e')
  ∧ (shl_align m e e').2 = e'.
Proof.
  intros He. unfold shl_align.
  destruct (e' - e) as [|d|d] eqn:Hd; try lia; simpl.
  - replace (e - e') with 0 by lia. split; lia.
  - rewrite iter_xO. split; [|done]. do 2 f_equal. lia.
Qed.

#[local] Open Scope Q_scope.

(** One rounding of a positive integer mantissa with its exponent. *)
Lemma binary_round_near (s : bool) (p : positive) (e : Z) :
  2 ^ (-1000) <= inject_Z (Zpos p) * 2 ^ e →
  inject_Z (Zpos p) * 2 ^ e <= 2 ^ 1000 →
  ∃ r, binary_round prec emax s p e = r ∧ normal r ∧ sign_of r = s
     ∧ near 1 (inject_Z (Zpos p) * 2 ^ e) (mag r).
Proof.
  intros Hlo Hhi. unfold binary_round.
  destruct (mantissa_bounds (Zpos p) e) as [Hmlo Hmhi]; [done|].
  simpl Zdigits2 in Hmlo, Hmhi. set (D := Zpos (digits2_pos p)) in *.
  assert (-1000 ≤ D + e)%Z as He1.
  { assert (-1001 < D + e)%Z; [|lia]. apply pow2_lt_inv.
    assert (2 ^ (-1001) < 2 ^ (-1000)) by (by apply Qpower_lt_compat_l).
    rewrite inject_Z_plus in Hmhi. change (inject_Z 1) with 1 in Hmhi.
    pose proof (pow2_pos e). nra. }
  assert (fexp prec emax (D + e) = D + e - 53)%Z as ->.
  { unfold fexp, SpecFloat.emin, prec, emax. lia. }
  assert (∃ (mz : positive) (ez : Z),
            shl_align p e (D + e - 53) = (mz, ez)
            ∧ (53 ≤ Zdigits2 (Zpos mz))%Z
            ∧ inject_Z (Zpos mz) * 2 ^ ez == inject_Z (Zpos p) * 2 ^ e)
    as (mz & ez & -> & Hdig & Hval).
  { destruct (Z_le_gt_dec 53 D) as [HD|HD].
    - exists p, e. unfold shl_align.
      destruct (D + e - 53 - e)%Z eqn:Hd; try lia; done.
    - destruct (shl_align_value p e (D + e - 53)) as [Hm He]; [lia|].
      destruct (shl_align p e (D + e - 53)) as [mz ez]. simpl in Hm, He.
      exists mz, ez. split; [done|]. subst ez.
      replace (e - (D + e - 53))%Z with (53 - D)%Z in Hm by lia. split.
      + rewrite (Zdigits2_unique (Zpos mz) 53); [done| |done].
        rewrite Hm. pose proof (digits2_pos_bounds p) as [Hplo Hphi].
        fold D in Hplo, Hphi.
        assert (2 ^ (53 - 1) = 2 ^ (D - 1) * 2 ^ (53 - D))%Z as ->.
        { rewrite <-Z.pow_add_r by lia. f_equal. lia. }
        assert (2 ^ 53 = 2 ^ D * 2 ^ (53 - D))%Z as ->.
        { rewrite <-Z.pow_add_r by lia. f_equal. lia. }
        assert (0 < 2 ^ (53 - D))%Z by (apply Z.pow_pos_nonneg; lia).
        nia.
      + rewrite Hm, inject_Z_mult, inject_Z_pow2 by lia.
        rewrite <-Qmult_assoc, <-pow2_add. by replace (53 - D + (D + e - 53))%Z with e by lia. }
  destruct (binary_round_aux_near s (Zpos mz) ez loc_Exact
              (inject_Z (Zpos p) * 2 ^ e)) as (m' & e' & -> & Hm' & Hnear);
    try done.
  - rewrite Hval. apply Qle_refl.
  - rewrite <-Hval, inject_Z_plus. change (inject_Z 1) with 1.
    pose proof (pow2_pos ez). nra.
  - by eexists.
Qed.

Lemma pow2_0 : 2 ^ 0 == 1.
Proof. done. Qed.

(** The conversion of a positive integer. *)
Lemma of_Z_near (n : Z) :
  (0 < n)%Z → inject_Z n <= 2 ^ 1000 →
  normal (of_Z n) ∧ sign_of (of_Z n) = false
  ∧ near 1 (inject_Z n) (mag (of_Z n)).
Proof.
  intros Hn Hhi. destruct n as [|p|p]; try lia.
  unfold of_Z, binary_normalize.
  destruct (binary_round_near false p 0) as (r & -> & Hnormal & Hsign & Hnear).
  - rewrite pow2_0, Qmult_1_r.
    assert (2 ^ (-1000) <= 2 ^ 0) by (by apply pow2_le).
    assert (1 <= inject_Z (Zpos p)).
    { change 1 with (inject_Z 1). rewrite <-Zle_Qle. lia. }
    rewrite pow2_0 in *. lra.
  - by rewrite pow2_0, Qmult_1_r.
  - split_and!; try done. unfold near in *.
    by rewrite pow2_0, Qmult_1_r in Hnear.
Qed.

(** The product of a double of 53 digits and a finite double. *)
Lemma mul_near (x y : b64) (sy : bool) (my : positive) (ey : Z) :
  normal x → y = S754_finite sy my ey →
  2 ^ (-1000) <= mag x * mag y → mag x * mag y <= 2 ^ 1000 →
  normal (mul x y) ∧ sign_of (mul x y) = xorb (sign_of x) sy
  ∧ near 1 (mag x * mag y) (mag (mul x y)).
Proof.
  intros Hx -> Hlo Hhi. destruct x as [| | |sx mx ex]; try done.
  simpl in Hx, Hlo, Hhi. unfold mul, SFmul.
  assert (inject_Z (Zpos (mx * my)) * 2 ^ (ex + ey)
          == inject_Z (Zpos mx) * 2 ^ ex * (inject_Z (Zpos my) * 2 ^ ey))
    as Hval.
  { rewrite Pos2Z.inj_mul, inject_Z_mult, pow2_add. ring. }
  destruct (binary_round_aux_near (xorb sx sy) (Zpos (mx * my)) (ex + ey)
              loc_Exact (inject_Z (Zpos mx) * 2 ^ ex
                         * (inject_Z (Zpos my) * 2 ^ ey)))
    as (m' & e' & -> & Hm' & Hnear); try done.
  - destruct (Zdigits2_bounds (Zpos (mx * my))) as [[_ Hd] Hpos]; [done|].
    assert (52 < Zdigits2 (Zpos (mx * my)))%Z; [|lia].
    apply (Z.pow_lt_mono_r_iff 2); [lia|lia|].
    rewrite Pos2Z.inj_mul in Hd |- *.
    assert (Zpos mx ≤ Zpos mx * Zpos my)%Z by nia. lia.
  - rewrite Hval. apply Qle_refl.
  - rewrite <-Hval, inject_Z_plus. change (inject_Z 1) with 1.
    pose proof (pow2_pos (ex + ey)). nra.
Qed.

(** The sum of two finite doubles of the same sign. *)
Lemma add_near (s : bool) (mx my : positive) (ex ey : Z) :
  let x := S754_finite s mx ex in
  let y := S754_finite s my ey in
  2 ^ (-1000) <= mag x + mag y → mag x + mag y <= 2 ^ 1000 →
  normal (add x y) ∧ sign_of (add x y) = s
  ∧ near 1 (mag x + mag y) (mag (add x y)).
Proof.
  intros x y Hlo Hhi. unfold x, y in *. simpl in Hlo, Hhi.
  unfold add, SFadd.
  set (ez := Z.min ex ey).
  destruct (shl_align_value mx ex ez) as [Hmx _]; [lia|].
  destruct (shl_align_value my ey ez) as [Hmy _]; [lia|].
  set (mx' := (shl_align mx ex ez).1) in *.
  set (my' := (shl_align my ey ez).1) in *.
  assert (inject_Z (Zpos (mx' + my')) * 2 ^ ez
          == inject_Z (Zpos mx) * 2 ^ ex + inject_Z (Zpos my) * 2 ^ ey)
    as Hval.
  { rewrite Pos2Z.inj_add, inject_Z_plus, Hmx, Hmy, !inject_Z_mult.
    rewrite !inject_Z_pow2 by lia.
    assert (2 ^ ex == 2 ^ (ex - ez) * 2 ^ ez) as Hex.
    { rewrite <-pow2_add. by replace (ex - ez + ez)%Z with ex by lia. }
    assert (2 ^ ey == 2 ^ (ey - ez) * 2 ^ ez) as Hey.
    { rewrite <-pow2_add. by replace (ey - ez + ez)%Z with ey by lia. }
    rewrite Hex, Hey. ring. }
  assert (binary_normalize prec emax
            (cond_Zopp s (Zpos mx') + cond_Zopp s (Zpos my')) ez false
          = binary_round prec emax s (mx' + my') ez) as ->.
  { by destruct s. }
  destruct (binary_round_near s (mx' + my') ez)
    as (r & -> & Hnormal & Hsign & Hnear).
  - by rewrite Hval.
  - by rewrite Hval.
  - split_and!; try done. unfold near in *. by rewrite Hval in Hnear.
Qed.

Lemma Qle_mult_pos_inv (a b c : Q) : 0 < c → a * c <= b * c → a <= b.
Proof. intros Hc H. by apply (Qmult_le_r _ _ c). Qed.

(** The quotient of two finite doubles. *)
Lemma div_near (sx sy : bool) (mx my : positive) (ex ey : Z) :
  let x := S754_finite sx mx ex in
  let y := S754_finite sy my ey in
  2 ^ (-1000) <= mag x / mag y → mag x / mag y <= 2 ^ 1000 →
  ∃ r, div x y = Some r ∧ normal r ∧ sign_of r = xorb sx sy
     ∧ near 1 (mag x / mag y) (mag r).
Proof.
  intros x y. unfold x, y. unfold mag at 1 2 3 4.
  set (X := inject_Z (Zpos mx) * 2 ^ ex / (inject_Z (Zpos my) * 2 ^ ey)).
  intros Hlo Hhi. unfold div. simpl is_zero. cbv iota.
  unfold SFdiv, SFdiv_core_binary.
  set (d1 := Zdigits2 (Zpos mx)). set (d2 := Zdigits2 (Zpos my)).
  destruct (mantissa_bounds (Zpos mx) ex) as [Hxlo Hxhi]; [done|].
  destruct (mantissa_bounds (Zpos my) ey) as [Hylo Hyhi]; [done|].
  destruct (Zdigits2_bounds (Zpos mx)) as [[Hd1lo Hd1hi] Hd1]; [done|].
  destruct (Zdigits2_bounds (Zpos my)) as [[Hd2lo Hd2hi] Hd2]; [done|].
  fold d1 in Hxlo, Hxhi, Hd1lo, Hd1hi, Hd1.
  fold d2 in Hylo, Hyhi, Hd2lo, Hd2hi, Hd2.
  rewrite inject_Z_plus in Hxhi, Hyhi. change (inject_Z 1) with 1 in Hxhi, Hyhi.
  pose proof (pow2_pos ex) as Hpex. pose proof (pow2_pos ey) as Hpey.
  assert (0 < inject_Z (Zpos my)) as HY.
  { change 0 with (inject_Z 0). by rewrite <-Zlt_Qlt. }
  assert (0 < inject_Z (Zpos mx)) as HXm.
  { change 0 with (inject_Z 0). by rewrite <-Zlt_Qlt. }
  assert (0 < inject_Z (Zpos my) * 2 ^ ey) as Hypos by nra.
  assert (X * (inject_Z (Zpos my) * 2 ^ ey) == inject_Z (Zpos mx) * 2 ^ ex)
    as HX.
  { unfold X. field. lra. }
  set (z := (d1 + ex - (d2 + ey))%Z).
  assert (-1002 < z)%Z as Hz.
  { apply pow2_lt_inv.
    assert (2 ^ (-1002) * 2 ^ (d2 + ey) < 2 ^ (-1000) * 2 ^ (d2 - 1 + ey)).
    { rewrite <-!pow2_add. apply Qpower_lt_compat_l; [lia|done]. }
    assert (2 ^ z * 2 ^ (d2 + ey) == 2 ^ (d1 + ex)) as Hzz.
    { rewrite <-pow2_add. by replace (z + (d2 + ey))%Z with (d1 + ex)%Z
        by (unfold z; lia). }
    pose proof (pow2_pos (d2 + ey)). pose proof (pow2_pos (d2 - 1 + ey)).
    pose proof (pow2_pos (-1000)). pose proof (pow2_pos (-1002)).
    apply (Qle_lt_trans _ (2 ^ (-1002) * 2 ^ (d2 + ey) / 2 ^ (d2 + ey)));
      [apply Qle_shift_div_l; [done|apply Qle_refl]|].
    apply Qlt_shift_div_r; [done|]. rewrite Hzz. nra. }
  assert (fexp prec emax z = z - 53)%Z as ->.
  { unfold fexp, SpecFloat.emin, prec, emax. lia. }
  set (e' := Z.min (z - 53) (ex - ey)).
  set (s := (ex - ey - e')%Z).
  assert (0 ≤ s ∧ 53 + d2 - d1 ≤ s)%Z as [Hs0 Hs] by (unfold s, e', z; lia).
  set (m' := match s with
             | 0%Z => Zpos mx
             | Zpos _ => Z.shiftl (Zpos mx) s
             | Zneg _ => 0%Z
             end).
  assert (m' = Zpos mx * 2 ^ s)%Z as Hm'.
  { unfold m'. destruct s as [|p|p] eqn:Hp; try lia.
    by rewrite Z.shiftl_mul_pow2. }
  pose proof (Z_div_mod m' (Zpos my) eq_refl) as Hdiv.
  destruct (Z.div_eucl m' (Zpos my)) as [q r]. destruct Hdiv as [Hq Hr].
  assert (2 ^ 52 ≤ q)%Z as Hqbig.
  { assert (2 ^ 52 * Zpos my < m')%Z; [|nia].
    rewrite Hm'.
    assert (2 ^ (52 + d2) ≤ 2 ^ (d1 - 1) * 2 ^ s)%Z.
    { rewrite <-Z.pow_add_r by lia. apply Z.pow_le_mono_r; lia. }
    assert (2 ^ (52 + d2) = 2 ^ 52 * 2 ^ d2)%Z as Hp by (by rewrite Z.pow_add_r by lia).
    assert (0 < 2 ^ s)%Z by (apply Z.pow_pos_nonneg; lia).
    nia. }
  assert (inject_Z m' * 2 ^ e' == X * inject_Z (Zpos my)) as HXq.
  { apply (Qmult_inj_r _ _ (2 ^ ey)); [lra|].
    transitivity (X * (inject_Z (Zpos my) * 2 ^ ey)); [|ring].
    rewrite HX, Hm', inject_Z_mult, inject_Z_pow2 by lia.
    assert (2 ^ ex == 2 ^ s * 2 ^ e' * 2 ^ ey) as ->; [|ring].
    rewrite <-!pow2_add. by replace (s + e' + ey)%Z with ex by (unfold s; lia). }
  pose proof (pow2_pos e') as Hpe'.
  assert (inject_Z q * inject_Z (Zpos my) <= inject_Z m') as Hq1.
  { rewrite <-inject_Z_mult, <-Zle_Qle. lia. }
  assert (inject_Z m' <= (inject_Z q + 1) * inject_Z (Zpos my)) as Hq2.
  { change 1 with (inject_Z 1).
    rewrite <-inject_Z_plus, <-inject_Z_mult, <-Zle_Qle. nia. }
  destruct (binary_round_aux_near (xorb sx sy) q e'
              (new_location (Zpos my) r) X)
    as (mr & er & -> & Hmr & Hnear); try done.
  - lia.
  - destruct (Zdigits2_bounds q) as [[_ Hd] Hpos]; [lia|].
    assert (52 < Zdigits2 q)%Z; [|lia].
    apply (Z.pow_lt_mono_r_iff 2); lia.
  - apply (Qle_mult_pos_inv _ _ (inject_Z (Zpos my))); [done|].
    rewrite <-HXq. nra.
  - apply (Qle_mult_pos_inv _ _ (inject_Z (Zpos my))); [done|].
    rewrite <-HXq, inject_Z_plus. change (inject_Z 1) with 1. nra.
  - by eexists.
Qed.

End Operations.

Section Near.
#[local] Arguments Qpower : simpl never.
#[local] Arguments Z.pow : simpl never.
#[local] Open Scope Q_scope.

Lemma rnd_pow_ge_1 (k : nat) : 1 <= rnd ^ Z.of_nat k.
Proof. apply Qpower_1_le; [done|lia]. Qed.

Lemma rnd_pow_add (j k : nat) :
  rnd ^ Z.of_nat (j + k) == rnd ^ Z.of_nat j * rnd ^ Z.of_nat k.
Proof. rewrite Nat2Z.inj_add. by apply Qpower_plus. Qed.

Lemma rnd_pow_mono (j k : nat) :
  (j ≤ k)%nat → rnd ^ Z.of_nat j <= rnd ^ Z.of_nat k.
Proof. intros. apply Qpower_le_compat_l; [lia|done]. Qed.

Lemma rnd_pow_S (k : nat) : rnd ^ Z.of_nat (S k) == rnd ^ Z.of_nat k * rnd.
Proof.
  replace (S k) with (k + 1)%nat by lia. by rewrite rnd_pow_add.
Qed.

(** Bernoulli's bound, for at most [2^51] roundings. *)
Lemma rnd_pow_bound (k : nat) :
  (Z.of_nat k ≤ 2 ^ 51)%Z →
  rnd ^ Z.of_nat k <= 1 + inject_Z (Z.of_nat k) * (1 # 2251799813685248).
Proof.
  induction k as [|k IH]; intros Hk.
  - done.
  - rewrite rnd_pow_S. specialize (IH ltac:(lia)).
    rewrite Nat2Z.inj_succ. unfold Z.succ. rewrite inject_Z_plus.
    change (inject_Z 1) with 1.
    assert (inject_Z (Z.of_nat k) <= 2251799813685248) as Hk'.
    { change 2251799813685248 with (inject_Z (2 ^ 51)). rewrite <-Zle_Qle. lia. }
    assert (0 <= inject_Z (Z.of_nat k)) as Hk0.
    { change 0 with (inject_Z 0). rewrite <-Zle_Qle. lia. }
    pose proof (rnd_pow_ge_1 k) as H1. unfold rnd in *.
    revert IH H1 Hk' Hk0.
    generalize (inject_Z (Z.of_nat k))
      ((1 + (1 # 4503599627370496)) ^ Z.of_nat k).
    intros n p **. nra.
Qed.

Lemma rnd_pow_le_2 (k : nat) : (Z.of_nat k ≤ 2 ^ 51)%Z → rnd ^ Z.of_nat k <= 2.
Proof.
  intros Hk. pose proof (rnd_pow_bound k Hk) as Hb.
  assert (inject_Z (Z.of_nat k) <= 2251799813685248) as Hk'.
  { change 2251799813685248 with (inject_Z (2 ^ 51)). rewrite <-Zle_Qle. lia. }
  lra.
Qed.

Lemma near_eq (k : nat) (x x' y y' : Q) :
  x == x' → y == y' → near k x y → near k x' y'.
Proof. unfold near. by intros -> ->. Qed.

Lemma near_weaken (j k : nat) (x y : Q) :
  (j ≤ k)%nat → 0 <= x → 0 <= y → near j x y → near k x y.
Proof.
  intros Hjk Hx Hy [H1 H2]. pose proof (rnd_pow_mono j k Hjk).
  pose proof (rnd_pow_ge_1 j). split; nra.
Qed.

Lemma near_trans (j k : nat) (x y z : Q) :
  near j x y → near k y z → near (j + k) x z.
Proof.
  intros [H1 H2] [H3 H4]. unfold near. rewrite rnd_pow_add.
  pose proof (rnd_pow_ge_1 j). pose proof (rnd_pow_ge_1 k). split; nra.
Qed.

Lemma near_add (k : nat) (x y x' y' : Q) :
  near k x y → near k x' y' → near k (x + x') (y + y').
Proof. intros [H1 H2] [H3 H4]. split; nra. Qed.

Lemma near_mul_r (k : nat) (c x y : Q) :
  0 <= c → near k x y → near k (x * c) (y * c).
Proof. intros Hc [H1 H2]. split; nra. Qed.

Lemma near_div (j k : nat) (x y x' y' : Q) :
  0 <= x → 0 <= y → 0 < x' → 0 < y' →
  near j x y → near k x' y' → near (j + k) (x / x') (y / y').
Proof.
  intros Hx Hy Hx' Hy' [H1 H2] [H3 H4]. unfold near. rewrite rnd_pow_add.
  pose proof (rnd_pow_ge_1 j) as Hj. pose proof (rnd_pow_ge_1 k) as Hk.
  revert H1 H2 H3 H4 Hj Hk.
  generalize (rnd ^ Z.of_nat j) (rnd ^ Z.of_nat k). intros a b **.
  split.
  - apply Qle_shift_div_r; [done|].
    assert (y / y' * (a * b) * x' == (y * a) * (x' * b) / y') as ->
      by (field; lra).
    apply Qle_shift_div_l; [done|]. nra.
  - apply Qle_shift_div_r; [done|].
    assert (x / x' * (a * b) * y' == (x * a) * (y' * b) / x') as ->
      by (field; lra).
    apply Qle_shift_div_l; [done|]. nra.
Qed.

End Near.

Section Tracking.
#[local] Arguments Qpower : simpl never.
#[local] Arguments Z.pow : simpl never.
Import Binary64.
#[local] Open Scope Q_scope.

Lemma tracks_nonneg s lo k X f : 0 <= lo → tracks s lo k X f → 0 <= X.
Proof. destruct f; simpl; try done; [intros _ ->; lra|intros ? (_ & ? & _); lra]. Qed.

Lemma inject_Z_nonneg (n : Z) : (0 ≤ n)%Z → 0 <= inject_Z n.
Proof. intros. change 0 with (inject_Z 0). by rewrite <-Zle_Qle. Qed.

Lemma inject_Z_ge_1 (n : Z) : (0 < n)%Z → 1 <= inject_Z n.
Proof. intros. change 1 with (inject_Z 1). rewrite <-Zle_Qle. lia. Qed.

Lemma inject_Z_le_pow2 (n k : Z) : (0 ≤ k)%Z → (n ≤ 2 ^ k)%Z → inject_Z n <= 2 ^ k.
Proof. intros Hk Hn. rewrite <-inject_Z_pow2 by done. by rewrite <-Zle_Qle. Qed.

(** The product of a sample count and an accuracy. *)
Lemma product_tracks (s : bool) (n : Z) (a : b64) :
  (0 ≤ n < 2 ^ 63)%Z → in_range s a →
  tracks s (2 ^ (-800)) 2 (inject_Z n * mag a) (mul (of_Z n) a).
Proof.
  intros [Hn0 Hn] Ha. destruct (decide (n = 0%Z)) as [->|Hne].
  { destruct a; try done; simpl; ring. }
  destruct (of_Z_near n) as (Hnormal & Hsign & Hnear); [lia| |].
  { apply Qle_trans with (2 ^ 63); [apply inject_Z_le_pow2; lia|].
    by apply pow2_le. }
  destruct a as [sa| | |sa ma ea]; try done.
  { destruct (of_Z n); try done; simpl; ring. }
  destruct Ha as (-> & Hlo & Hhi).
  set (a := S754_finite s ma ea) in *.
  pose proof (inject_Z_ge_1 n ltac:(lia)) as Hn1.
  assert (inject_Z n <= 2 ^ 63) as Hn63 by (apply inject_Z_le_pow2; lia).
  pose proof (rnd_pow_le_2 1 ltac:(done)) as Hr2.
  pose proof (rnd_pow_ge_1 1) as Hr1.
  destruct Hnear as [Hnear1 Hnear2].
  assert ((1 # 2) <= mag (of_Z n) ∧ mag (of_Z n) <= 2 * 2 ^ 63) as [HF1 HF2].
  { revert Hnear1 Hnear2 Hn1 Hn63 Hr1 Hr2.
    generalize (mag (of_Z n)) (inject_Z n) (rnd ^ Z.of_nat 1) (2 ^ 63).
    intros F N r P **. split; nra. }
  pose proof (pow2_pos (-800)) as Hp7.
  pose proof (pow2_pos 63) as Hp8.
  destruct (mul_near (of_Z n) a s ma ea) as (Hnormal' & Hsign' & Hnear');
    [done|done| | |].
  { apply Qle_trans with ((1 # 2) * 2 ^ (-800)).
    - change (1 # 2) with (2 ^ (-1)). rewrite <-pow2_add. by apply pow2_le.
    - revert HF1 Hlo Hp7. generalize (mag (of_Z n)) (mag a) (2 ^ (-800)).
      intros. nra. }
  { apply Qle_trans with (2 * 2 ^ 63 * 2 ^ 800).
    - revert HF1 HF2 Hlo Hhi Hp7 Hp8.
      generalize (mag (of_Z n)) (mag a) (2 ^ (-800)) (2 ^ 63) (2 ^ 800).
      intros. nra.
    - change 2 with (2 ^ 1) at 1. rewrite <-!pow2_add. by apply pow2_le. }
  destruct (mul (of_Z n) a) as [| | |sp mp ep] eqn:Hp; try done.
  simpl in Hsign'. rewrite Hsign in Hsign'. simpl in Hsign'.
  split; [done|]. split; [nra|].
  apply (near_trans 1 1 _ (mag (of_Z n) * mag a)); [|done].
  apply near_mul_r; [lra|done].
Qed.

(** One step of [sum]. *)
Lemma add_tracks (s : bool) (k : nat) (X Y : Q) (acc p : b64) :
  (2 ≤ k)%nat → (Z.of_nat k ≤ 2 ^ 51)%Z →
  tracks s (2 ^ (-800)) k X acc → tracks s (2 ^ (-800)) 2 Y p →
  X + Y <= 2 ^ 900 →
  tracks s (2 ^ (-800)) (S k) (X + Y) (add acc p).
Proof.
  intros Hk2 Hk Hacc Hp Hhi.
  pose proof (pow2_pos (-800)) as Hp800.
  pose proof (tracks_nonneg _ _ _ _ _ (Qlt_le_weak _ _ Hp800) Hacc) as HX.
  pose proof (tracks_nonneg _ _ _ _ _ (Qlt_le_weak _ _ Hp800) Hp) as HY.
  destruct acc as [sa| | |sa ma ea], p as [sp| | |sp mp ep]; try done.
  - simpl in Hacc, Hp. destruct sa, sp; simpl; lra.
  - simpl in Hacc. destruct Hp as (-> & Hlo & Hnear).
    assert (add (S754_zero sa) (S754_finite s mp ep) = S754_finite s mp ep)
      as -> by done.
    split; [done|]. split; [lra|].
    apply (near_eq _ Y _ (mag (S754_finite s mp ep))); [lra|reflexivity|].
    apply (near_weaken 2); [lia|lra| |done].
    unfold mag. pose proof (pow2_pos ep).
    assert (0 < inject_Z (Zpos mp)) by (by apply (Qlt_le_trans _ 1);
      [|apply inject_Z_ge_1]). nra.
  - simpl in Hp. destruct Hacc as (-> & Hlo & Hnear).
    assert (add (S754_finite s ma ea) (S754_zero sp) = S754_finite s ma ea)
      as -> by done.
    split; [done|]. split; [lra|].
    apply (near_eq _ X _ (mag (S754_finite s ma ea))); [lra|reflexivity|].
    apply (near_weaken k); [lia|lra| |done].
    unfold mag. pose proof (pow2_pos ea).
    assert (0 < inject_Z (Zpos ma)) by (by apply (Qlt_le_trans _ 1);
      [|apply inject_Z_ge_1]). nra.
  - destruct Hacc as (-> & HloX & HnearX). destruct Hp as (-> & HloY & HnearY).
    set (x := S754_finite s ma ea) in *. set (y := S754_finite s mp ep) in *.
    assert (0 <= mag x ∧ 0 <= mag y) as [Hx0 Hy0].
    { unfold x, y, mag. pose proof (pow2_pos ea). pose proof (pow2_pos ep).
      pose proof (inject_Z_ge_1 (Zpos ma) eq_refl).
      pose proof (inject_Z_ge_1 (Zpos mp) eq_refl). split; nra. }
    assert (near k (X + Y) (mag x + mag y)) as Hsum.
    { apply near_add; [done|]. by apply (near_weaken 2); [lia|lra|lra|]. }
    pose proof (rnd_pow_le_2 k Hk) as Hr2. pose proof (rnd_pow_ge_1 k) as Hr1.
    destruct Hsum as [Hs1 Hs2].
    destruct (add_near s ma mp ea ep) as (Hnormal & Hsign & Hnear).
    + fold x y. apply Qle_trans with ((1 # 2) * 2 ^ (-800)).
      * change (1 # 2) with (2 ^ (-1)). rewrite <-pow2_add. by apply pow2_le.
      * revert Hs1 Hs2 HloX HloY Hr1 Hr2 Hx0 Hy0 Hp800.
        generalize (mag x) (mag y) (rnd ^ Z.of_nat k) (2 ^ (-800)).
        intros. nra.
    + fold x y. apply Qle_trans with (2 * 2 ^ 900).
      * pose proof (pow2_pos 900). revert Hs1 Hs2 Hhi Hr1 Hr2 Hx0 Hy0 H.
        generalize (mag x) (mag y) (rnd ^ Z.of_nat k) (2 ^ 900).
        intros. nra.
      * change 2 with (2 ^ 1) at 1. rewrite <-pow2_add. by apply pow2_le.
    + fold x y in Hnormal, Hsign, Hnear.
      destruct (add x y) as [| | |sr mr er]; try done. simpl in Hsign.
      split; [done|]. split; [lra|].
      replace (S k) with (k + 1)%nat by lia.
      by apply (near_trans k 1 _ (mag x + mag y)).
Qed.

(** [sum]: the accumulator after the products [ps], whose exact
    magnitudes are [Xs]. *)
Lemma sum_tracks (s : bool) (Xs : list Q) (ps : list b64) :
  Forall2 (tracks s (2 ^ (-800)) 2) Xs ps →
  ∀ (k : nat) (X : Q) (acc : b64),
    (2 ≤ k)%nat → (Z.of_nat (k + length ps) ≤ 2 ^ 51)%Z →
    tracks s (2 ^ (-800)) k X acc → X + Qsum Xs <= 2 ^ 900 →
    tracks s (2 ^ (-800)) (k + length ps) (X + Qsum Xs)
      (fold_left add ps acc).
Proof.
  pose proof (pow2_pos (-800)) as Hp800.
  induction 1 as [|Y p Xs ps Hp Hrest IH]; intros k X acc Hk2 Hk Hacc Hhi.
  - simpl. rewrite Nat.add_0_r. destruct acc; try done; simpl in *.
    + lra.
    + destruct Hacc as (? & ? & [? ?]). split; [done|]. split; [lra|].
      split; lra.
  - simpl in *.
    assert (0 <= Qsum Xs) as Hsum0.
    { clear -Hrest Hp800. induction Hrest as [|Z q Zs qs Hq _ IH]; [done|].
      simpl. pose proof (tracks_nonneg _ _ _ _ _ (Qlt_le_weak _ _ Hp800) Hq). lra. }
    pose proof (tracks_nonneg _ _ _ _ _ (Qlt_le_weak _ _ Hp800) Hp) as HY.
    pose proof (tracks_nonneg _ _ _ _ _ (Qlt_le_weak _ _ Hp800) Hacc) as HX.
    replace (k + S (length ps))%nat with (S k + length ps)%nat by lia.
    assert (tracks s (2 ^ (-800)) (S k + length ps) (X + Y + Qsum Xs)
              (fold_left add ps (add acc p))) as Hgoal.
    { apply IH; [lia|lia| |lra].
      apply add_tracks; [done|lia|done|done|lra]. }
    destruct (fold_left add ps (add acc p)); try done; simpl in *.
    + lra.
    + destruct Hgoal as (? & ? & [? ?]). split; [done|]. split; [lra|].
      split; lra.
Qed.

(** The division of the sum by the converted total count. *)
Lemma mean_tracks (s : bool) (k : nat) (X : Q) (S : b64) (N : Z) :
  tracks s (2 ^ (-800)) k X S → (0 < N ≤ 2 ^ 95)%Z → X <= 2 ^ 900 →
  (Z.of_nat k + 2 ≤ 2 ^ 51)%Z →
  ∃ v, div S (of_Z N) = Some v
     ∧ tracks s (2 ^ (-900)) (k + 2) (X / inject_Z N) v.
Proof.
  intros HS [HN0 HN] HX Hk.
  pose proof (pow2_pos (-800)) as Hp800. pose proof (pow2_pos (-900)) as Hp900.
  pose proof (inject_Z_ge_1 N HN0) as HN1.
  assert (inject_Z N <= 2 ^ 95) as HN95 by (apply inject_Z_le_pow2; lia).
  destruct (of_Z_near N) as (Hnormal & Hsign & HnearN); [done| |].
  { apply Qle_trans with (2 ^ 95); [done|by apply pow2_le]. }
  destruct (of_Z N) as [| | |sN mN eN] eqn:HfN; try done.
  simpl in Hsign. subst sN. set (fN := S754_finite false mN eN) in *.
  destruct S as [sS| | |sS mS eS]; try done.
  { exists (S754_zero (xorb sS false)). split; [done|]. simpl in HS |- *.
    rewrite HS. field. lra. }
  destruct HS as (-> & HloX & HnearX). set (fS := S754_finite s mS eS) in *.
  pose proof (rnd_pow_le_2 k ltac:(lia)) as Hrk2.
  pose proof (rnd_pow_ge_1 k) as Hrk1.
  pose proof (rnd_pow_le_2 1 ltac:(done)) as Hr2.
  pose proof (rnd_pow_ge_1 1) as Hr1.
  assert ((1 # 2) * 2 ^ (-800) <= mag fS ∧ mag fS <= 2 * 2 ^ 900) as [HS1 HS2].
  { destruct HnearX as [H1 H2]. pose proof (pow2_pos 900).
    revert H1 H2 HloX HX Hrk1 Hrk2 Hp800 H.
    generalize (mag fS) (rnd ^ Z.of_nat k) (2 ^ (-800)) (2 ^ 900).
    intros. split; nra. }
  assert ((1 # 2) <= mag fN ∧ mag fN <= 2 * 2 ^ 95) as [HN2 HN3].
  { destruct HnearN as [H1 H2]. pose proof (pow2_pos 95).
    revert H1 H2 HN1 HN95 Hr1 Hr2 H.
    generalize (mag fN) (rnd ^ Z.of_nat 1) (inject_Z N) (2 ^ 95).
    intros. split; nra. }
  destruct (div_near s false mS mN eS eN) as (v & Hdiv & Hnv & Hsv & Hnearv).
  { fold fS fN. apply Qle_shift_div_l; [lra|].
    apply Qle_trans with ((1 # 2) * 2 ^ (-800)); [|done].
    apply Qle_trans with (2 ^ (-1000) * (2 * 2 ^ 95)).
    - apply Qmult_le_l; [apply pow2_pos|done].
    - change (1 # 2) with (2 ^ (-1)). change 2 with (2 ^ 1) at 2.
      rewrite <-!pow2_add. by apply pow2_le. }
  { fold fS fN. apply Qle_shift_div_r; [lra|].
    apply Qle_trans with (2 * 2 ^ 900); [done|].
    apply Qle_trans with (2 ^ 1000 * (1 # 2)).
    - change (1 # 2) with (2 ^ (-1)). change 2 with (2 ^ 1) at 1.
      rewrite <-!pow2_add. by apply pow2_le.
    - apply Qmult_le_l; [apply pow2_pos|done]. }
  fold fS fN in Hdiv, Hnearv. exists v. split; [done|].
  destruct v as [| | |sv mv ev]; try done. simpl in Hsv.
  split; [by destruct s|]. split.
  - apply Qle_shift_div_l; [lra|].
    apply Qle_trans with (2 ^ (-900) * 2 ^ 95).
    + apply Qmult_le_l; [apply pow2_pos|done].
    + apply Qle_trans with (2 ^ (-800)); [|done].
      rewrite <-pow2_add. by apply pow2_le.
  - replace (k + 2)%nat with (k + 1 + 1)%nat by lia.
    apply (near_trans (k + 1) 1 _ (mag fS / mag fN)); [|done].
    apply near_div; [lra|lra|lra|lra|done|done].
Qed.

End Tracking.

Section Mean.
#[local] Arguments Qpower : simpl never.
#[local] Arguments Z.pow : simpl never.
Import Binary64.
#[local] Open Scope Q_scope.

Lemma products_track (s : bool) (rs : list (Z * b64)) :
  Forall (λ r, (0 ≤ r.1 < 2 ^ 63)%Z ∧ in_range s r.2) rs →
  Forall2 (tracks s (2 ^ (-800)) 2)
    ((λ r, inject_Z r.1 * mag r.2) <$> rs) (weighted <$> rs).
Proof.
  induction 1 as [|[n a] rs [Hn Ha] _ IH]; [constructor|].
  rewrite !fmap_cons. constructor; [|done].
  by apply product_tracks.
Qed.

Lemma products_bound (s : bool) (rs : list (Z * b64)) :
  Forall (λ r, (0 ≤ r.1 < 2 ^ 63)%Z ∧ in_range s r.2) rs →
  Qsum ((λ r, inject_Z r.1 * mag r.2) <$> rs)
  <= inject_Z (Zsum rs.*1) * 2 ^ 800.
Proof.
  induction 1 as [|[n a] rs [Hn Ha] _ IH]; [done|].
  rewrite !fmap_cons. simpl Qsum. simpl Zsum. rewrite inject_Z_plus.
  simpl in Hn, Ha.
  pose proof (inject_Z_nonneg n ltac:(lia)) as Hn0.
  pose proof (pow2_pos 800) as Hp.
  assert (0 <= mag a ∧ mag a <= 2 ^ 800) as [Ha0 Ha1].
  { pose proof (pow2_pos (-800)).
    destruct a as [| | |sa ma ea]; try done.
    destruct Ha as (_ & Hlo & Hhi). split; lra. }
  simpl fst. simpl snd. revert IH Hn0 Ha0 Ha1 Hp.
  generalize (Qsum ((λ r : Z * b64, inject_Z r.1 * mag r.2) <$> rs))
    (inject_Z (Zsum rs.*1)) (inject_Z n) (mag a) (2 ^ 800).
  intros. nra.
Qed.

(** The aggregation formula in binary64 carries the exact weighted mean
    of the magnitudes, after at most [K + 4] roundings. *)
Lemma binary64_mean_tracks (s : bool) (rs : list (Z * b64)) :
  Forall (λ r, (0 ≤ r.1 < 2 ^ 63)%Z ∧ in_range s r.2) rs →
  (0 < Zsum rs.*1)%Z → (Z.of_nat (length rs) ≤ 2 ^ 32)%Z →
  ∃ v, weighted_mean rs = Some v
     ∧ tracks s (2 ^ (-900)) (length rs + 4)
         (Qsum ((λ r, inject_Z r.1 * mag r.2) <$> rs)
          / inject_Z (Zsum rs.*1)) v.
Proof.
  intros Hrs Htot Hlen. unfold weighted_mean.
  change (float_div (F:=b64)) with div.
  change (float_add (F:=b64)) with add.
  change (int_to_float (F:=b64)) with of_Z.
  set (Xs := (λ r : Z * b64, inject_Z r.1 * mag r.2) <$> rs).
  assert (Zsum rs.*1 ≤ 2 ^ 95)%Z as HN.
  { assert (Forall (λ n, 0 ≤ n < 2 ^ 63)%Z rs.*1) as Hns.
    { apply Forall_fmap. eapply List.Forall_impl; [|exact Hrs]. by intros r [? _]. }
    pose proof (Zsum_bound _ Hns) as [_ Hb]. rewrite length_fmap in Hb.
    assert (2 ^ 95 = 2 ^ 32 * 2 ^ 63)%Z as -> by done.
    assert (0 < 2 ^ 63)%Z by done. nia. }
  assert (Qsum Xs <= 2 ^ 900) as Hsum.
  { apply Qle_trans with (inject_Z (Zsum rs.*1) * 2 ^ 800);
      [by apply (products_bound s)|].
    apply Qle_trans with (2 ^ 95 * 2 ^ 800).
    - apply Qmult_le_compat_r; [|apply Qlt_le_weak, pow2_pos].
      apply inject_Z_le_pow2; [lia|done].
    - rewrite <-pow2_add. by apply pow2_le. }
  pose proof (sum_tracks s Xs (weighted <$> rs) (products_track s rs Hrs)
                2 0 (of_Z 0) ltac:(lia)) as Htracks.
  rewrite length_fmap in Htracks.
  destruct (mean_tracks s (2 + length rs) (0 + Qsum Xs)
              (fold_left add (weighted <$> rs) (of_Z 0)) (Zsum rs.*1))
    as (v & Hv & Hvt).
  - apply Htracks; [|done|lra].
    assert (2 ^ 32 + 2 ≤ 2 ^ 51)%Z by done. lia.
  - lia.
  - lra.
  - assert (2 ^ 32 + 4 ≤ 2 ^ 51)%Z by done. lia.
  - exists v. split; [done|].
    replace (length rs + 4)%nat with (2 + length rs + 2)%nat by lia.
    assert (0 < inject_Z (Zsum rs.*1)).
    { change 0 with (inject_Z 0). by rewrite <-Zlt_Qlt. }
    destruct v as [| | |sv mv ev]; try done; simpl in Hvt |- *.
    + rewrite <-Hvt. field. lra.
    + destruct Hvt as (? & Hlo & [H1 H2]). split; [done|].
      assert ((0 + Qsum Xs) / inject_Z (Zsum rs.*1)
              == Qsum Xs / inject_Z (Zsum rs.*1)) as Heq by (field; lra).
      rewrite Heq in Hlo, H1, H2. split; [done|]. by split.
Qed.

Lemma within_of_near (k : nat) (mu w : Q) (s : bool) :
  (Z.of_nat k ≤ 2 ^ 51)%Z → 0 <= mu → near k mu w →
  within (inject_Z (Z.of_nat k) * (1 # 1125899906842624))
    (if s then - mu else mu) (if s then - w else w).
Proof.
  intros Hk Hmu [H1 H2]. unfold within.
  pose proof (rnd_pow_bound k Hk) as Hb. pose proof (rnd_pow_ge_1 k) as Hr1.
  assert (0 <= inject_Z (Z.of_nat k)) as Hk0 by (apply inject_Z_nonneg; lia).
  assert (inject_Z (Z.of_nat k) <= 2251799813685248) as Hk'.
  { change 2251799813685248 with (inject_Z (2 ^ 51)). rewrite <-Zle_Qle. lia. }
  assert (Qabs (if s then - mu else mu) == mu) as ->.
  { destruct s; [rewrite Qabs_opp|]; by apply Qabs_pos. }
  apply Qabs_Qle_condition.
  revert H1 H2 Hb Hr1 Hk0 Hk'.
  generalize (rnd ^ Z.of_nat k) (inject_Z (Z.of_nat k)). intros r n **.
  set (t := n * (1 # 2251799813685248)) in *.
  assert (0 <= t ∧ t <= 1) as [Ht0 Ht1] by (unfold t; lra).
  assert (n * (1 # 1125899906842624) == 2 * t) as -> by (unfold t; ring).
  clearbody t.
  assert (0 <= w) as Hw by nra.
  assert (w - mu <= mu * t) as Hup by nra.
  assert (mu - w <= w * t) as Hdown by nra.
  assert (w <= 2 * mu) as Hw2 by nra.
  assert (w * t <= 2 * mu * t) as Hwt by nra.
  destruct s; split; nra.
Qed.

Lemma within_eq (t x x' y y' : Q) :
  x == x' → y == y' → within t x y → within t x' y'.
Proof. unfold within. by intros -> ->. Qed.

Lemma within_0 (t : Q) : within t 0 0.
Proof.
  unfold within. change (Qabs (0 - 0)) with 0. change (Qabs 0) with 0. lra.
Qed.

Lemma val_in_range (s : bool) (a : b64) :
  in_range s a → val a == if s then - mag a else mag a.
Proof.
  destruct a as [| | |sa ma ea]; try done.
  - intros _. simpl. destruct s; lra.
  - intros [-> _]. by destruct s.
Qed.

Lemma mean_value_in_range (s : bool) (rs : list (Z * b64)) :
  Forall (λ r, (0 ≤ r.1 < 2 ^ 63)%Z ∧ in_range s r.2) rs →
  Qsum ((λ r, inject_Z r.1 * val r.2) <$> rs)
  == if s then - Qsum ((λ r, inject_Z r.1 * mag r.2) <$> rs)
     else Qsum ((λ r, inject_Z r.1 * mag r.2) <$> rs).
Proof.
  induction 1 as [|[n a] rs [_ Ha] _ IH]; [by destruct s|].
  rewrite !fmap_cons. simpl Qsum. simpl in Ha. simpl fst. simpl snd.
  rewrite IH, (val_in_range s a Ha). destruct s; ring.
Qed.

(** The aggregation formula in binary64 is the exact weighted mean of the
    reported values within the tolerance. *)
Lemma binary64_mean_within (s : bool) (rs : list (Z * b64)) :
  Forall (λ r, (0 ≤ r.1 < 2 ^ 63)%Z ∧ in_range s r.2) rs →
  (0 < Zsum rs.*1)%Z → (Z.of_nat (length rs) ≤ 2 ^ 32)%Z →
  ∃ v, weighted_mean rs = Some v
     ∧ within (tolerance (length rs)) (mean_value rs) (val v).
Proof.
  intros Hrs Htot Hlen.
  destruct (binary64_mean_tracks s rs Hrs Htot Hlen) as (v & Hv & Ht).
  exists v. split; [done|].
  assert (0 < inject_Z (Zsum rs.*1)) as HN.
  { change 0 with (inject_Z 0). by rewrite <-Zlt_Qlt. }
  set (mu := Qsum ((λ r, inject_Z r.1 * mag r.2) <$> rs)
             / inject_Z (Zsum rs.*1)) in *.
  assert (mean_value rs == if s then - mu else mu) as Hmean.
  { unfold mean_value, mu. rewrite (mean_value_in_range s rs Hrs).
    destruct s; field; lra. }
  destruct v as [sv| | |sv mv ev]; try done.
  - simpl in Ht. apply (within_eq _ 0 _ 0); [|done|apply within_0].
    rewrite Hmean. destruct s; rewrite Ht; ring.
  - destruct Ht as (-> & Hlo & Hnear).
    apply (within_eq _ (if s then - mu else mu) _
             (if s then - mag (S754_finite s mv ev)
              else mag (S754_finite s mv ev)));
      [by rewrite Hmean|by destruct s|].
    apply within_of_near; [|pose proof (pow2_pos (-900)); lra|done].
    assert (2 ^ 32 + 4 ≤ 2 ^ 51)%Z by done. lia.
Qed.

End Mean.

Section Binary64Aggregation.
#[local] Arguments Qpower : simpl never.
#[local] Arguments Z.pow : simpl never.
Import Binary64.

(** What [weighted_average] returns in binary64 on results with
    accuracies of one sign. *)
Lemma weighted_average_binary64 (s : bool)
    (ms : list (Z * Metrics b64)) (rs : list (Z * b64)) :
  reports ms rs →
  Forall (λ r, 0 ≤ r.1 < 2 ^ 63 ∧ in_range s r.2) rs →
  0 < Zsum rs.*1 → Z.of_nat (length rs) ≤ 2 ^ 32 →
  ∃ v, weighted_average ms = Ok {[ "accuracy" := SFloat v ]}
     ∧ within (tolerance (length rs)) (mean_value rs) (val v).
Proof.
  intros Hrep Hrs Htot Hlen.
  destruct (binary64_mean_within s rs Hrs Htot Hlen) as (v & Hv & Hwithin).
  exists v. split; [|done].
  rewrite (weighted_average_floats ms rs); try done.
  - by rewrite Hv.
  - intros ->. simpl in Htot. lia.
  - apply dataset_lengths_fit.
    + apply Forall_fmap. eapply List.Forall_impl; [|exact Hrs]. by intros r [? _].
    + rewrite length_fmap. assert (2 ^ 32 < 2 ^ 63) by done. lia.
Qed.

#[local] Open Scope Q_scope.

Lemma mean_value_agree (rs : list (Z * b64)) (a : b64) :
  Forall (λ r, r.2 = a) rs → (0 < Zsum rs.*1)%Z → mean_value rs == val a.
Proof.
  intros Hall Htot. unfold mean_value.
  assert (Qsum ((λ r, inject_Z r.1 * val r.2) <$> rs)
          == inject_Z (Zsum rs.*1) * val a) as ->.
  { clear Htot. induction Hall as [|[n x] rs Hx _ IH]; [simpl; ring|].
    rewrite !fmap_cons. simpl Qsum. simpl Zsum. simpl in Hx. subst x.
    rewrite IH, inject_Z_plus. simpl. ring. }
  assert (0 < inject_Z (Zsum rs.*1)).
  { change 0 with (inject_Z 0). by rewrite <-Zlt_Qlt. }
  field. lra.
Qed.

Lemma Qsum_perm (l l' : list Q) : l ≡ₚ l' → Qsum l == Qsum l'.
Proof.
  induction 1 as [|x l l' _ IH|x y l|l1 l2 l3 _ IH1 _ IH2]; simpl.
  - reflexivity.
  - by rewrite IH.
  - ring.
  - by rewrite IH1.
Qed.

Lemma Zsum_perm (l l' : list Z) : l ≡ₚ l' → Zsum l = Zsum l'.
Proof.
  induction 1 as [|x l l' _ IH|x y l|l1 l2 l3 _ IH1 _ IH2]; simpl; lia.
Qed.

Lemma mean_value_perm (rs rs' : list (Z * b64)) :
  rs ≡ₚ rs' → mean_value rs == mean_value rs'.
Proof.
  intros Hperm. unfold mean_value.
  rewrite (Qsum_perm _ ((λ r, inject_Z r.1 * val r.2) <$> rs'))
    by (by apply fmap_Permutation).
  by rewrite (Zsum_perm rs.*1 rs'.*1) by (by apply fmap_Permutation).
Qed.

End Binary64Aggregation.

Lemma reports_perm {F} `{PyFloat F}
    (ms ms' : list (Z * Metrics F)) (rs : list (Z * F)) :
  ms ≡ₚ ms' → reports ms rs → ∃ rs', rs ≡ₚ rs' ∧ reports ms' rs'.
Proof.
  intros Hperm. revert rs.
  induction Hperm as [|m ms ms' _ IH|m1 m2 ms|ms1 ms2 ms3 _ IH1 _ IH2];
    intros rs Hrep.
  - inversion Hrep; subst. exists []. split; [done|constructor].
  - inversion Hrep as [|? r ? rs0 Hr Hrest]; subst.
    destruct (IH rs0 Hrest) as (rs' & Hp & Hrep').
    exists (r :: rs'). split; [by constructor|by constructor].
  - inversion Hrep as [|? r2 ? rs0 Hr2 Hrest]; subst.
    inversion Hrest as [|? r1 ? rs1 Hr1 Hrest1]; subst.
    exists (r1 :: r2 :: rs1). split; [apply Permutation_swap|].
    constructor; [done|]. by constructor.
  - destruct (IH1 rs Hrep) as (rs2 & Hp2 & Hrep2).
    destruct (IH2 rs2 Hrep2) as (rs3 & Hp3 & Hrep3).
    exists rs3. split; [by etrans|done].
Qed.

(** ** Agreement of all clients *)


Lemma Zsum_pos (ns : list Z) : Forall (λ n, 0 < n) ns → ns ≠ [] → 0 < Zsum ns.
Proof.
  intros Hpos Hne.
  assert (0 ≤ Zsum ns ∧ (ns ≠ [] → 0 < Zsum ns)) as [_ Hgoal]; [|by apply Hgoal].
  clear Hne. induction Hpos as [|n ns Hn _ [IH _]]; simpl; [done|].
  split; [|intros _]; lia.
Qed.

Lemma Qcsum_agree (rs : list (Z * Qc)) (a : Qc) :
  Forall (λ r, r.2 = a) rs →
  Qcsum ((λ r, Exact.of_Z r.1 * r.2)%Qc <$> rs)
  = (Exact.of_Z (Zsum rs.*1) * a)%Qc.
Proof.
  unfold Exact.of_Z.
  induction 1 as [|[n x] rs Hx _ IH]; csimpl.
  - rewrite Z2Qc_inj_0. ring.
  - simpl in Hx. subst x. rewrite IH, Z2Qc_inj_add. ring.
Qed.

Lemma weighted_average_agreement_exact
    (ms : list (Z * Metrics Qc)) (rs : list (Z * Qc)) (a : Qc) :
  reports ms rs → rs ≠ [] → Forall (λ r, 0 < r.1 ∧ r.2 = a) rs →
  weighted_average ms = Ok {[ "accuracy" := SFloat a ]}.
Proof.
  intros Hrep Hne Hall.
  assert (0 < Zsum rs.*1) as Htot.
  { apply Zsum_pos; [|by destruct rs].
    apply Forall_fmap. eapply List.Forall_impl; [|exact Hall]. by intros r [? _]. }
  destruct (weighted_average_mean ms rs) as (v & Hv & ->); try done.
  { lia. }
  { split; [by apply Forall_true|done]. }
  rewrite weighted_mean_exact in Hv by lia. injection Hv as <-.
  do 3 f_equal. unfold exact_weighted_mean.
  rewrite (Qcsum_agree rs a)
    by (eapply List.Forall_impl; [|exact Hall]; by intros r [_ ?]).
  field. by intros ?%exact_of_Z_zero; lia.
Qed.

(** In binary64 the aggregated accuracy is a double within the relative
    tolerance [(K + 4) / 2^50] of the accuracy [a] that each of the [K]
    clients reports. *)
Lemma weighted_average_agreement_binary64 (s : bool)
    (ms : list (Z * Metrics Binary64.b64)) (rs : list (Z * Binary64.b64))
    (a : Binary64.b64) :
  reports ms rs → rs ≠ [] →
  Forall (λ r, 0 < r.1 < 2 ^ 63 ∧ r.2 = a) rs →
  Z.of_nat (length rs) ≤ 2 ^ 32 → in_range s a →
  ∃ v, weighted_average ms = Ok {[ "accuracy" := SFloat v ]}
     ∧ within (tolerance (length rs)) (val a) (val v).
Proof.
  intros Hrep Hne Hall Hlen Ha.
  assert (0 < Zsum rs.*1) as Htot.
  { apply Zsum_pos; [|by destruct rs].
    apply Forall_fmap. eapply List.Forall_impl; [|exact Hall].
    intros r [? _]. simpl. lia. }
  destruct (weighted_average_binary64 s ms rs) as (v & Hv & Hwithin);
    try done.
  { eapply List.Forall_impl; [|exact Hall]. intros r [? ->].
    split; [lia|done]. }
  exists v. split; [done|].
  eapply within_eq; [|reflexivity|exact Hwithin].
  apply mean_value_agree; [|done].
  eapply List.Forall_impl; [|exact Hall]. by intros r [_ ?].
Qed.



(** ** Order of the results *)

Section ExactOrder.

Implicit Types (v acc : Scalar Qc) (l : list (Scalar Qc)).

Lemma py_add_numeric acc v acc' :
  numeric acc → py_add acc v = Ok acc' → numeric acc'.
Proof. destruct acc, v; simpl; intros Hacc [= <-]; done. Qed.

Lemma py_add_swap acc v w :
  numeric acc →
  (py_add acc v ≫= λ a, py_add a w) = (py_add acc w ≫= λ a, py_add a v).
Proof.
  unfold Exact.exact_float.
  destruct acc as [| |x|a|]; try done; intros _;
    destruct v as [[]| |y|b|], w as [[]| |z|c|]; simpl; try done;
    do 2 f_equal; unfold Exact.of_Z;
    rewrite ?Z2Qc_inj_add, ?Z2Qc_inj_0, ?Z2Qc_inj_1; try ring; try lia.
Qed.

Lemma sum_from_perm acc l l' :
  numeric acc → l ≡ₚ l' → sum_from acc l = sum_from acc l'.
Proof.
  intros Hacc Hperm. revert acc Hacc.
  induction Hperm as [|v l l' _ IH|v w l|l1 l2 l3 _ IH1 _ IH2];
    intros acc Hacc.
  - done.
  - simpl. destruct (py_add acc v) as [acc'|e] eqn:Hadd; [|done].
    simpl. apply IH. by eapply py_add_numeric.
  - simpl. pose proof (py_add_swap acc v w Hacc) as Hswap.
    destruct (py_add acc v) as [a|e], (py_add acc w) as [b|e'];
      simpl in *; try done.
    + by rewrite Hswap.
    + by destruct (py_add a w).
    + by destruct (py_add b v).
  - by rewrite IH1, IH2.
Qed.

(** A comprehension in which no element raises is a map, and this is
    so on every list. *)
Lemma comprehension_products (ms : list (Z * Metrics Qc)) :
  (Forall (λ r, is_Ok (accuracy_product r)) ms
   ∧ ∃ g, ∀ ms' : list (Z * Metrics Qc),
        Forall (λ r, is_Ok (accuracy_product r)) ms' →
        comprehension accuracy_product ms' = Ok (g <$> ms'))
  ∨ (¬ Forall (λ r, is_Ok (accuracy_product r)) ms
     ∧ ∃ e, comprehension accuracy_product ms = Err e).
Proof.
  set (g (r : Z * Metrics Qc) :=
         match accuracy_product r with Ok y => y | Err _ => SInt 0 end).
  assert (∀ ks : list (Z * Metrics Qc),
            Forall (λ r, is_Ok (accuracy_product r)) ks →
            comprehension accuracy_product ks = Ok (g <$> ks)) as Hg.
  { intros ks Hks. apply comprehension_Ok.
    eapply List.Forall_impl; [|exact Hks]. intros r [y Hy]. unfold g.
    by rewrite Hy. }
  induction ms as [|r ms IH].
  - left. split; [done|]. by exists g.
  - destruct (accuracy_product r) as [y|e] eqn:Hr.
    + destruct IH as [[Hall _]|(Hnot & e & Herr)].
      * left. split; [|by exists g].
        constructor; [by exists y|done].
      * right. split; [by intros [_ ?]%Forall_cons_1|].
        exists e. simpl. rewrite Hr. simpl. by rewrite Herr.
    + right. split.
      * intros [[y Hy] _]%Forall_cons_1. congruence.
      * exists e. simpl. by rewrite Hr.
Qed.

Lemma weighted_average_perm (ms ms' : list (Z * Metrics Qc)) m :
  ms ≡ₚ ms' → weighted_average ms = Ok m → weighted_average ms' = Ok m.
Proof.
  intros Hperm. rewrite !weighted_average_unfold.
  assert (py_sum ((λ '(num_examples, _), SInt num_examples) <$> ms')
          = py_sum (F:=Qc) ((λ '(num_examples, _), SInt num_examples) <$> ms))
    as ->.
  { apply sum_from_perm; [done|]. by apply fmap_Permutation. }
  destruct (comprehension_products ms) as [(Hall & g & Hg)|(_ & e & ->)];
    [|done].
  assert (Forall (λ r, is_Ok (accuracy_product r)) ms') as Hall'
    by (by rewrite <-Hperm).
  rewrite (Hg ms Hall), (Hg ms' Hall'). csimpl.
  assert (py_sum (g <$> ms') = py_sum (g <$> ms)) as ->; [|done].
  apply sum_from_perm; [done|]. by apply fmap_Permutation.
Qed.

End ExactOrder.

(** In binary64 the order can change the last bit of the sum: the same
    three results, in two orders. *)
Example binary64_order_last_bit :
  let r (n : Z) : Z * Metrics Binary64.b64 :=
    (1, {[ "accuracy" := SFloat (Binary64.lit n 10) ]}) in
  weighted_average [ r 1; r 2; r 3 ]
  = Ok {[ "accuracy" := SFloat (S754_finite false 7205759403792795 (-55)) ]}
  ∧ weighted_average [ r 3; r 2; r 1 ]
    = Ok {[ "accuracy" := SFloat (S754_finite false 7205759403792793 (-55)) ]}.
Proof. by vm_compute. Qed.

(** With two results, as in this simulation ([NUM_CLIENTS = 2]), binary64
    gives the same bits in both orders: float addition is commutative, and
    the start value [0] only turns a first product [-0.0] into [0.0]. *)
Lemma binary64_add_comm (x y : Binary64.b64) :
  Binary64.add x y = Binary64.add y x.
Proof.
  unfold Binary64.add, SFadd.
  destruct x as [sx|sx| |sx mx ex], y as [sy|sy| |sy my ey]; try done;
    try (by destruct sx, sy).
  by rewrite Z.min_comm, Z.add_comm.
Qed.

Lemma binary64_sum_two (p q : Binary64.b64) :
  float_add (float_add (int_to_float 0) p) q
  = float_add (float_add (int_to_float 0) q) p.
Proof.
  change (Binary64.add (Binary64.add (S754_zero false) p) q
          = Binary64.add (Binary64.add (S754_zero false) q) p).
  destruct p as [sp|sp| |sp mp ep], q as [sq|sq| |sq mq eq];
    try done; try (by destruct sp); try (by destruct sq);
    try (by destruct sp, sq).
  apply binary64_add_comm.
Qed.

Lemma weighted_average_two_binary64 (n1 n2 : Z) (m1 m2 : Metrics Binary64.b64)
    (a1 a2 : Binary64.b64) :
  m1 !! "accuracy" = Some (SFloat a1) → m2 !! "accuracy" = Some (SFloat a2) →
  weighted_average [ (n2, m2); (n1, m1) ] = weighted_average [ (n1, m1); (n2, m2) ].
Proof.
  intros H1 H2. rewrite !weighted_average_unfold, !py_sum_examples.
  assert (Zsum [(n2, m2); (n1, m1)].*1 = Zsum [(n1, m1); (n2, m2)].*1) as ->
    by (simpl; lia).
  unfold comprehension, accuracy_product, getitem. rewrite H1, H2.
  cbn [of_option mbind result_bind py_mul]. unfold float_of_int.
  destruct (int_fits n1), (int_fits n2); cbn [mbind result_bind]; try done.
  set (p1 := float_mul (int_to_float n1) a1).
  set (p2 := float_mul (int_to_float n2) a2).
  change [SFloat p2; SFloat p1] with (SFloat <$> [p2; p1]).
  change [SFloat p1; SFloat p2] with (SFloat <$> [p1; p2]).
  rewrite !py_sum_floats by done. cbn [fold_left].
  by rewrite binary64_sum_two.
Qed.


(** In binary64, on results with accuracies of one sign, both orders
    return a double within the tolerance of the exact weighted mean. *)
Lemma weighted_average_perm_binary64 (s : bool)
    (ms ms' : list (Z * Metrics Binary64.b64))
    (rs : list (Z * Binary64.b64)) :
  ms ≡ₚ ms' → reports ms rs →
  Forall (λ r, 0 ≤ r.1 < 2 ^ 63 ∧ in_range s r.2) rs →
  0 < Zsum rs.*1 → Z.of_nat (length rs) ≤ 2 ^ 32 →
  ∃ v v', weighted_average ms = Ok {[ "accuracy" := SFloat v ]}
        ∧ weighted_average ms' = Ok {[ "accuracy" := SFloat v' ]}
        ∧ within (tolerance (length rs)) (mean_value rs) (val v)
        ∧ within (tolerance (length rs)) (mean_value rs) (val v')
        ∧ (Qabs (val v' - val v)
           <= 2 * tolerance (length rs) * Qabs (mean_value rs))%Q.
Proof.
  intros Hperm Hrep Hrs Htot Hlen.
  destruct (weighted_average_binary64 s ms rs) as (v & Hv & Hw); try done.
  destruct (reports_perm ms ms' rs Hperm Hrep) as (rs' & Hrs' & Hrep').
  destruct (weighted_average_binary64 s ms' rs') as (v' & Hv' & Hw').
  - done.
  - by rewrite <-Hrs'.
  - by rewrite <-(Zsum_perm rs.*1 rs'.*1) by (by apply fmap_Permutation).
  - by rewrite <-Hrs'.
  - assert (length rs' = length rs) as Hl
      by (symmetry; by apply Permutation_length).
    rewrite Hl in Hw'.
    assert (within (tolerance (length rs)) (mean_value rs) (val v')) as Hw''.
    { eapply within_eq; [|reflexivity|exact Hw'].
      symmetry. by apply mean_value_perm. }
    exists v, v'. split_and!; try done.
    unfold within in Hw, Hw''.
    assert (val v' - val v
            == (val v' - mean_value rs) + - (val v - mean_value rs))%Q
      as -> by ring.
    eapply Qle_trans; [apply Qabs_triangle|]. rewrite Qabs_opp.
    generalize dependent (Qabs (val v' - mean_value rs)).
    generalize dependent (Qabs (val v - mean_value rs)).
    generalize (Qabs (mean_value rs)), (tolerance (length rs)).
    intros. lra.
Qed.



(** ** The only key that [weighted_average] reads *)

Section AccuracyKey.
Context {F : Type} `{PyFloat F}.

Lemma weighted_average_same_accuracy ms ms' :
  same_accuracy ms ms' → weighted_average ms = weighted_average ms'.
Proof.
  intros Hsame. rewrite !weighted_average_unfold.
  assert (comprehension accuracy_product ms
          = comprehension accuracy_product ms') as ->.
  { induction Hsame as [|[n m] [n' m'] ms ms' [Hn Ha] _ IH]; [done|].
    simpl in Hn, Ha. subst n'. csimpl. rewrite IH. unfold getitem.
    by rewrite Ha. }
  assert (((λ '(num_examples, _), SInt (F:=F) num_examples) <$> ms)
          = ((λ '(num_examples, _), SInt num_examples) <$> ms')) as ->; [|done].
  induction Hsame as [|[n m] [n' m'] ms ms' [Hn _] _ IH]; [done|].
  simpl in Hn. subst n'. csimpl. by rewrite IH.
Qed.

Lemma weighted_average_not_Ok ms :
  Exists lacks_accuracy ms → ∃ e, weighted_average ms = Err e.
Proof.
  intros Hex. rewrite weighted_average_unfold.
  assert (∃ e, comprehension accuracy_product ms = Err e) as [e ->];
    [|by exists e].
  induction Hex as [[n m] ms Hr|r ms _ [e IH]]; csimpl.
  - unfold lacks_accuracy in Hr. simpl in Hr. unfold getitem.
    rewrite Hr. by eexists.
  - destruct (accuracy_product r) as [y|e']; csimpl.
    + rewrite IH. by eexists.
    + by eexists.
Qed.

Lemma weighted_average_KeyError ms :
  Exists lacks_accuracy ms →
  Forall (λ r, lacks_accuracy r ∨ float_accuracy r) ms →
  weighted_average ms = Err (KeyError "accuracy").
Proof.
  intros Hex Hall. rewrite weighted_average_unfold.
  assert (comprehension accuracy_product ms = Err (KeyError "accuracy"))
    as ->; [|done].
  induction ms as [|[n m] ms IH]; [by inversion Hex|].
  inversion Hall as [|? ? Hr Hall']; subst. csimpl.
  destruct Hr as [Hr|[Hn [a Ha]]]; unfold lacks_accuracy in *; simpl in *.
  - unfold getitem. by rewrite Hr.
  - rewrite IH; [| |done].
    + unfold getitem. rewrite Ha. csimpl. unfold float_of_int.
      by rewrite Hn.
    + inversion Hex as [? ? Hr|]; subst; [|done].
      unfold lacks_accuracy in Hr. simpl in Hr. congruence.
Qed.

End AccuracyKey.

Section FirstError.
Context {F : Type} `{PyFloat F}.

(** A comprehension raises the exception of its first element that
    raises. *)
Lemma comprehension_Err {A B} (f : A → result B) (l : list A) (e : PyError) :
  comprehension f l = Err e
  ↔ ∃ pre x post, l = pre ++ x :: post
      ∧ Forall (λ y, is_Ok (f y)) pre ∧ f x = Err e.
Proof.
  split.
  - induction l as [|x l IH]; [done|]. simpl.
    destruct (f x) as [y|e'] eqn:Hx; simpl.
    + destruct (comprehension f l) as [ys|e'']; [done|]. simpl.
      intros [= ->]. destruct IH as (pre & x' & post & -> & Hpre & Hx'); [done|].
      exists (x :: pre), x', post. split; [done|]. split; [|done].
      constructor; [by exists y|done].
    + intros [= ->]. by exists [], x, l.
  - intros (pre & x & post & -> & Hpre & Hx).
    induction Hpre as [|y pre [z Hy] _ IH]; simpl.
    + by rewrite Hx.
    + rewrite Hy. simpl. by rewrite IH.
Qed.

Lemma accuracy_product_Err (r : Z * Metrics F) (e : PyError) :
  accuracy_product r = Err e →
  (e = KeyError "accuracy" ∧ lacks_accuracy r)
  ∨ (e = OverflowError ∧ ¬ lacks_accuracy r).
Proof.
  destruct r as [n m]. unfold accuracy_product, lacks_accuracy, getitem.
  simpl. destruct (m !! "accuracy") as [a|]; simpl.
  - intros Hmul. right. split; [|done].
    destruct a; simpl in Hmul; try done.
    + by destruct (seq_repeat n b) eqn:Hs; simplify_eq/=;
        unfold seq_repeat in Hs; repeat case_match; simplify_eq.
    + unfold float_of_int in Hmul. by case_match; simplify_eq/=.
    + by destruct (seq_repeat n s) eqn:Hs; simplify_eq/=;
        unfold seq_repeat in Hs; repeat case_match; simplify_eq.
  - intros [= <-]. by left.
Qed.

Lemma accuracy_product_lacks (r : Z * Metrics F) :
  lacks_accuracy r → accuracy_product r = Err (KeyError "accuracy").
Proof.
  destruct r as [n m]. unfold accuracy_product, lacks_accuracy, getitem.
  simpl. by intros ->.
Qed.

Lemma weighted_average_comprehension_Err (ms : list (Z * Metrics F)) e :
  comprehension accuracy_product ms = Err e → weighted_average ms = Err e.
Proof. intros Hc. rewrite weighted_average_unfold. by rewrite Hc. Qed.

(** The exception of [weighted_average] on a list in which some result
    has no ["accuracy"] key. *)
Lemma weighted_average_lacks (ms : list (Z * Metrics F)) :
  Exists lacks_accuracy ms →
  (weighted_average ms = Err (KeyError "accuracy")
   ∨ weighted_average ms = Err OverflowError)
  ∧ (weighted_average ms = Err (KeyError "accuracy")
     ↔ ∃ pre r post, ms = pre ++ r :: post ∧ lacks_accuracy r
         ∧ Forall (λ r, is_Ok (accuracy_product r)) pre).
Proof.
  intros Hex.
  assert (∃ e, comprehension accuracy_product ms = Err e) as [e He].
  { induction Hex as [r ms Hr|r ms _ [e IH]]; simpl.
    - rewrite (accuracy_product_lacks r Hr). by eexists.
    - destruct (accuracy_product r); simpl; [|by eexists].
      rewrite IH. by eexists. }
  rewrite (weighted_average_comprehension_Err ms e He).
  pose proof He as Hfirst. apply comprehension_Err in Hfirst.
  destruct Hfirst as (pre & r & post & -> & Hpre & Hr).
  destruct (accuracy_product_Err r e Hr) as [[-> Hlacks]|[-> Hhas]].
  - split; [by left|]. split; [|done]. intros _. by exists pre, r, post.
  - split; [by right|]. split; [done|].
    intros (pre' & r' & post' & Heq & Hlacks & Hpre').
    assert (comprehension accuracy_product (pre' ++ r' :: post')
            = Err (KeyError "accuracy")) as He'.
    { apply comprehension_Err. exists pre', r', post'.
      split; [done|]. split; [done|]. by apply accuracy_product_lacks. }
    rewrite <-Heq in He'. congruence.
Qed.

End FirstError.

(** ** The conversions and the round configuration *)

(** Repetition of a string: [3 * "ab"], [-1 * "a"], [2**63 * "a"],
    [-2**70 * "a"] and [2**62 * "ab"]. *)
Example seq_repeat_examples :
  seq_repeat 3 "ab" = Ok "ababab" ∧ seq_repeat (-1) "a" = Ok ""
  ∧ seq_repeat (2 ^ 63) "a" = Err OverflowError
  ∧ seq_repeat (- 2 ^ 70) "a" = Err OverflowError
  ∧ seq_repeat (2 ^ 62) "ab" = Err OverflowError.
Proof. by vm_compute. Qed.

(** [int] on the strings that CPython accepts and refuses. *)
Example int_of_str_examples :
  int_of_str 4300 "1" = Ok 1 ∧ int_of_str 4300 " -1 " = Ok (-1)
  ∧ int_of_str 4300 "+0_1" = Ok 1 ∧ int_of_str 4300 "-0" = Ok 0
  ∧ int_of_str 4300 "_1" = Err ValueError
  ∧ int_of_str 4300 "1_" = Err ValueError
  ∧ int_of_str 4300 "1__2" = Err ValueError
  ∧ int_of_str 4300 "- 1" = Err ValueError
  ∧ int_of_str 4300 "" = Err ValueError ∧ int_of_str 4300 "+" = Err ValueError
  ∧ int_of_str 4300 "1.0" = Err ValueError
  ∧ int_of_str 2 "123" = Err ValueError ∧ int_of_str 0 "123" = Ok 123.
Proof. by vm_compute. Qed.

(** Subscripts of a list of two. *)
Example list_getitem_examples :
  list_getitem [10; 20] 0 = Ok 10 ∧ list_getitem [10; 20] 1 = Ok 20
  ∧ list_getitem [10; 20] (-1) = Ok 20 ∧ list_getitem [10; 20] (-2) = Ok 10
  ∧ list_getitem [10; 20] 2 = Err IndexError
  ∧ list_getitem [10; 20] (-3) = Err IndexError.
Proof. by vm_compute. Qed.

(** C6. For every round number [r], the configuration that the strategy
    obtains for round [r] (the call [fit_config(r)]) maps ["server_round"]
    to [r] and ["local_epochs"] to the constant [LOCAL_EPOCHS = 1], and has
    no other key; only an explicit second argument changes the epoch
    count. *)
Theorem fit_config_round (F : Type) (r : Z) :
  fit_config (F:=F) r None !! "server_round" = Some (SInt r)
  ∧ fit_config (F:=F) r None !! "local_epochs" = Some (SInt LOCAL_EPOCHS)
  ∧ LOCAL_EPOCHS = 1
  ∧ dom (fit_config (F:=F) r None) = {[ "server_round"; "local_epochs" ]}
  ∧ ∀ e, fit_config (F:=F) r (Some e) !! "local_epochs" = Some (SInt e).
Proof.
  unfold fit_config. by split_and!.
Qed.

(** ** What a method call does to the [config] dict *)

Section ConfigFrame.
Context {F : Type} `{PyFloat F} `{Collaborators F}.

Lemma keeps_ret config {A} (a : A) : keeps config (mret a).
Proof. by intros w _. Qed.

Lemma keeps_bind config {A B} (m : M A) (f : A → M B) :
  keeps config m → (∀ a, keeps config (f a)) → keeps config (m ≫= f).
Proof.
  intros Hm Hf w Hw. specialize (Hm w Hw).
  unfold mbind, M_bind. destruct (m w) as [[a|e] w1]; simpl in *; [|done].
  rewrite <-Hm. apply Hf. by rewrite Hm.
Qed.

Lemma keeps_lift config {A} (r : result A) : keeps config (lift r).
Proof. by intros w _. Qed.

Lemma keeps_get_self config : keeps config get_self.
Proof. by intros w _. Qed.

Lemma keeps_set_net config net' : keeps config (set_net net').
Proof. by intros w _. Qed.

Lemma keeps_read config d : keeps config (read d).
Proof. by intros w _. Qed.

Lemma keeps_print config line : keeps config (print line).
Proof. by intros w _. Qed.

Lemma keeps_on_files config f : keeps config (on_files f).
Proof. intros w _. unfold on_files. by destruct (f (files w)). Qed.

(** A new dict never takes the address of a live one. *)
Lemma keeps_alloc config d : keeps config (alloc d).
Proof.
  intros w Hw. unfold alloc. simpl. apply lookup_insert_ne.
  intros Heq. apply elem_of_dom in Hw. rewrite <-Heq in Hw.
  by apply is_fresh in Hw.
Qed.

Create HintDb keeps discriminated.
#[local] Hint Resolve keeps_ret keeps_lift keeps_get_self keeps_set_net
  keeps_read keeps_print keeps_on_files keeps_alloc : keeps.

Ltac keeps_steps :=
  repeat first
    [ apply keeps_bind; [|intros ?]
    | progress eauto with keeps
    | match goal with |- keeps _ (let '(_, _) := ?p in _) => destruct p end ].

Lemma keeps_subscript config d key : keeps config (subscript d key).
Proof. unfold subscript. keeps_steps. Qed.

Lemma keeps_get_parameters config d : keeps config (get_parameters d).
Proof. unfold get_parameters. keeps_steps. Qed.

Lemma keeps_set_parameters config parameters d :
  keeps config (set_parameters parameters d).
Proof. unfold set_parameters. keeps_steps. Qed.

#[local] Hint Resolve keeps_subscript keeps_get_parameters
  keeps_set_parameters : keeps.

Lemma keeps_fit config parameters d : keeps config (fit parameters d).
Proof. unfold fit. keeps_steps. Qed.

Lemma keeps_evaluate config parameters d :
  keeps config (evaluate parameters d).
Proof. unfold evaluate. keeps_steps. Qed.

End ConfigFrame.

(** ** What [fit] and [evaluate] return *)

Section ClientResults.
Context {F : Type} `{PyFloat F} `{Collaborators F}.

Ltac run_method :=
  unfold fit, evaluate, subscript, set_parameters, get_parameters, read,
    lift, print, get_self, set_net, on_files, alloc;
  unfold mbind, M_bind, mret, M_ret; simpl;
  intros; repeat (case_match; simplify_eq/=).

(** C3, amended. For every call to [fit] that returns, the result holds
    the parameters of the network after [set_parameters] and [train] (with
    [int(config["local_epochs"])] epochs), the length of the local training
    dataset, and an empty metrics mapping: the epoch-level metrics that
    [train] returns go to [save_metrics_to_csv], under
    [client_<id>_train_metrics.csv], and are not returned. *)
Theorem fit_returns parameters config w parameters' n metrics w' :
  fit parameters config w = (Ok (parameters', n, metrics), w') →
  parameters' = helper_get_parameters (net (self w'))
  ∧ n = dataset_len (train_dataloader (self w))
  ∧ heap w' !! metrics = Some ∅
  ∧ ∃ local_epochs epochs net1 metrics_list,
      (heap w !!! config) !! "local_epochs" = Some local_epochs
      ∧ py_int int_max_str_digits local_epochs = Ok epochs
      ∧ helper_set_parameters (net (self w)) parameters = Ok net1
      ∧ train net1 (train_dataloader (self w)) epochs torch_device
        = Ok (net (self w'), metrics_list)
      ∧ save_metrics_to_csv (train_metrics_file (client_id (self w)))
          metrics_list (files w) = Ok (files w').
Proof.
  run_method. split_and!; try done.
  - apply lookup_insert_eq.
  - unfold getitem, of_option in *. repeat case_match; simplify_eq.
    by eexists _, _, _, _.
Qed.

(** The steps of a call to [evaluate] that returns. *)
Lemma evaluate_returns parameters config w loss n metrics w' :
  evaluate parameters config w = (Ok (loss, n, metrics), w') →
  n = dataset_len (test_dataloader (self w))
  ∧ ∃ accuracy net1 metrics_list,
      heap w' !! metrics = Some {[ "accuracy" := SFloat accuracy ]}
      ∧ helper_set_parameters (net (self w)) parameters = Ok net1
      ∧ test net1 (test_dataloader (self w)) torch_device
        = Ok (net (self w'), (loss, accuracy, metrics_list)).
Proof.
  run_method. split; [done|]. eexists _, _, _. split_and!; try done.
  apply lookup_insert_eq.
Qed.

End ClientResults.

(** The claim C3 fails: client 7 trains two epochs, [train] reports the
    rows [[1; 2]], and the metrics mapping that [fit] returns (the dict at
    address 3) is empty; the rows are in the CSV file. *)
Lemma fit_metrics_counterexample :
  ∃ w', fit (Demo.weights 10) 1%positive Demo.world = (Ok (12, 3, 3%positive), w')
      ∧ heap w' !! 3%positive = Some ∅
      ∧ files w' !! "client_7_train_metrics.csv" = Some [1; 2].
Proof. eexists. split; [by vm_compute|]. by vm_compute. Qed.

Lemma fit_returns_witness :
  ∃ w', fit (Demo.weights 10) 1%positive Demo.world = (Ok (12, 3, 3%positive), w')
      ∧ heap w' !! 3%positive = Some ∅.
Proof.
  destruct (fit (Demo.weights 10) 1%positive Demo.world) as [r w'] eqn:Hfit.
  assert (r = Ok (12, 3, 3%positive)) as ->.
  { by apply (f_equal fst) in Hfit; vm_compute in Hfit. }
  exists w'. split; [done|].
  by destruct (fit_returns _ _ _ _ _ _ _ Hfit) as (_ & _ & Hmetrics & _).
Defined.

(** C7. A call to [fit] leaves the [config] dict as it is: the dict at the
    address that the caller passed holds the same mapping when [fit] has
    returned, or raised, as before the call. *)
Theorem fit_keeps_config {F} `{PyFloat F} `{Collaborators F}
    (parameters : NDArrays) (config : positive) (w : World) :
  is_Some (heap w !! config) →
  heap (fit parameters config w).2 !! config = heap w !! config.
Proof. apply keeps_fit. Qed.

Lemma fit_keeps_config_witness :
  heap (fit (Demo.weights 10) 1%positive Demo.world).2 !! 1%positive
  = Some (fit_config 3 (Some 2)).
Proof.
  rewrite fit_keeps_config; [done|]. by eexists.
Defined.




(** ** The clients that the factories construct *)

Lemma list_getitem_in_range {A} (l : list A) (i n : Z) :
  Z.of_nat (length l) = n → - n ≤ i < n →
  ∃ x, list_getitem l i = Ok x ∧ l !! Z.to_nat (i mod n) = Some x.
Proof.
  intros Hlen Hi. unfold list_getitem. rewrite Hlen.
  set (j := if i <? 0 then i + n else i).
  assert (0 ≤ j < n ∧ i mod n = j) as [Hj ->].
  { unfold j. destruct (Z.ltb_spec i 0).
    - split; [lia|]. symmetry. apply (Z.mod_unique_pos _ _ (-1)); lia.
    - split; [lia|]. apply Z.mod_small. lia. }
  destruct (Z.leb_spec 0 j), (Z.ltb_spec j n); try lia. simpl.
  destruct (lookup_lt_is_Some_2 l (Z.to_nat j)) as [x Hx]; [lia|].
  exists x. by rewrite Hx.
Qed.

Lemma list_getitem_out_of_range {A} (l : list A) (i n : Z) :
  Z.of_nat (length l) = n → ¬ (- n ≤ i < n) →
  list_getitem l i = Err IndexError.
Proof.
  intros Hlen Hi. unfold list_getitem. rewrite Hlen.
  destruct (Z.ltb_spec i 0);
    [destruct (Z.leb_spec 0 (i + n)), (Z.ltb_spec (i + n) n)
    |destruct (Z.leb_spec 0 i), (Z.ltb_spec i n)]; simpl; try done; lia.
Qed.

(** C9. With per-client dataset lists of length [NUM_CLIENTS = 2],
    [client_fn_gpu(cid)] returns a client exactly when [int(cid)] is an
    integer [i] with [-NUM_CLIENTS <= i < NUM_CLIENTS]; the client then has
    the [i]-th train and test dataloaders (a negative [i] counts from the
    end), and for any other integer the subscript raises [IndexError]. *)
Theorem client_fn_gpu_domain {F} `{PyFloat F} `{Collaborators F}
    (net0 : Net) (cid : string) :
  Z.of_nat (length client_train_datasets) = NUM_CLIENTS →
  Z.of_nat (length client_test_datasets) = NUM_CLIENTS →
  NUM_CLIENTS = 2
  ∧ (∀ i, int_of_str int_max_str_digits cid = Ok i →
          - NUM_CLIENTS ≤ i < NUM_CLIENTS →
          ∃ c, client_fn_gpu net0 cid = Ok c
             ∧ client_train_datasets !! Z.to_nat (i mod NUM_CLIENTS)
               = Some (train_dataloader c)
             ∧ client_test_datasets !! Z.to_nat (i mod NUM_CLIENTS)
               = Some (test_dataloader c))
  ∧ (∀ i, int_of_str int_max_str_digits cid = Ok i →
          ¬ (- NUM_CLIENTS ≤ i < NUM_CLIENTS) →
          client_fn_gpu net0 cid = Err IndexError)
  ∧ (is_Ok (client_fn_gpu net0 cid) →
     ∃ i, int_of_str int_max_str_digits cid = Ok i
        ∧ - NUM_CLIENTS ≤ i < NUM_CLIENTS).
Proof.
  intros Htrain Htest. split_and!.
  - done.
  - intros i Hint Hi. unfold client_fn_gpu. rewrite Hint. csimpl.
    destruct (list_getitem_in_range _ i _ Htrain Hi) as (x & -> & Hx).
    destruct (list_getitem_in_range _ i _ Htest Hi) as (y & -> & Hy).
    csimpl. by eexists.
  - intros i Hint Hi. unfold client_fn_gpu. rewrite Hint. csimpl.
    by rewrite (list_getitem_out_of_range _ i _ Htrain Hi).
  - intros [c Hc]. unfold client_fn_gpu in Hc.
    destruct (int_of_str int_max_str_digits cid) as [i|e]; [|done].
    exists i. split; [done|].
    destruct (decide (- NUM_CLIENTS ≤ i < NUM_CLIENTS)) as [|Hi]; [done|].
    csimpl in Hc.
    by rewrite (list_getitem_out_of_range _ i _ Htrain Hi) in Hc.
Qed.

Lemma client_fn_gpu_domain_witness :
  (∃ c, client_fn_gpu (Demo.network 0) "-1" = Ok c
      ∧ train_dataloader c = [1; 1] ∧ test_dataloader c = [1])
  ∧ client_fn_gpu (Demo.network 0) "2" = Err IndexError.
Proof.
  destruct (client_fn_gpu_domain (Demo.network 0) "-1")
    as (_ & Hin & _ & _); [done..|].
  destruct (client_fn_gpu_domain (Demo.network 0) "2")
    as (_ & _ & Hout & _); [done..|].
  split.
  - destruct (Hin (-1)) as (c & Hc & Htrain & Htest); [done..|].
    exists c. vm_compute in Htrain, Htest. by simplify_eq.
  - apply (Hout 2); [done|]. unfold NUM_CLIENTS. lia.
Defined.

(** The claim C8 fails for the client-mode entry point: two runs of
    [client_device.main] on the same network can draw the ids 0 and 1000,
    and then write their metrics to files of different names. *)
Lemma main_client_id_counterexample :
  ∃ c1 c2,
    main_client (Demo.network 0) c1 ∧ main_client (Demo.network 0) c2
    ∧ client_id c1 ≠ client_id c2
    ∧ train_metrics_file (client_id c1) = "client_0_train_metrics.csv"
    ∧ train_metrics_file (client_id c2) = "client_1000_train_metrics.csv".
Proof.
  eexists _, _. split_and!.
  - by apply (main_client_draw _ 0).
  - by apply (main_client_draw _ 1000).
  - done.
  - done.
  - done.
Qed.

(** C8, amended. In simulation mode the client id is the [cid] that the
    orchestrator supplies: two calls of [client_fn_gpu] with the same [cid]
    construct clients with the same id and the same metrics file names,
    whatever the network.  In client mode [main] draws the id with
    [random.randint(0, 1000)]: the id of a run is some integer from 0 to
    1000, and every such integer is the id of some run. *)
Theorem client_id_assignment {F} `{PyFloat F} `{Collaborators F} :
  (∀ (net0 net1 : Net) cid c c',
     client_fn_gpu net0 cid = Ok c → client_fn_gpu net1 cid = Ok c' →
     client_id c = IdStr cid ∧ client_id c' = IdStr cid
     ∧ train_metrics_file (client_id c) = "client_" +:+ cid +:+ "_train_metrics.csv"
     ∧ eval_metrics_file (client_id c) = "client_" +:+ cid +:+ "_eval_metrics.csv")
  ∧ (∀ (net0 : Net) c, main_client net0 c → ∃ v, 0 ≤ v ≤ 1000 ∧ client_id c = IdInt v)
  ∧ (∀ (net0 : Net) v, 0 ≤ v ≤ 1000 → ∃ c, main_client net0 c ∧ client_id c = IdInt v).
Proof.
  split_and!.
  - intros net0 net1 cid c c' Hc Hc'. unfold client_fn_gpu in *.
    repeat match goal with
    | H : (?r ≫= _) = Ok _ |- _ => destruct r; csimpl in H; [|done]
    end.
    by simplify_eq.
  - intros net0 c [v Hv]. by exists v.
  - intros net0 v Hv. eexists. split; [by apply (main_client_draw _ v)|done].
Qed.

Lemma client_id_assignment_witness :
  ∃ c, client_fn_gpu (Demo.network 0) "1" = Ok c
     ∧ train_metrics_file (client_id c) = "client_1_train_metrics.csv".
Proof.
  destruct (client_id_assignment (F:=Binary64.b64)) as (Hsim & _ & _).
  destruct (client_fn_gpu (Demo.network 0) "1") as [c|e] eqn:Hc;
    [|by vm_compute in Hc].
  exists c. split; [done|].
  by destruct (Hsim _ _ _ _ _ Hc Hc) as (_ & _ & -> & _).
Defined.
